(** * openclaw_skills: task queue with failover, and tracked task execution

    A shallow embedding of the JavaScript programs that make up the task
    core of the repository:

    - [Orchestrator]: task-orchestrator.js (state manager, runtime tracker,
      hook registry, BullMQ worker callback);
    - [TaskQueue]: scripts/task-queue-redis.js (file queue, broker-backed
      facade with fallback);
    - [Heartbeat]: heartbeat.js (liveness check and restart of the worker
      process).

    JavaScript code that throws and catches is written in a small monad
    [Eff] over the program's mutable state; everything the program prints
    or calls out to is collected as a list of events.

    Conventions of the embedding:
    - what the program and its libraries throw is an [Error] object, of
      which the code reads [message]; a callback handed to the hook loop
      may throw any value ([Raised]);
    - objects used as dictionaries ([tracking], [state], [hooks]) are
      finite maps over strings for the keys they own; a name that every
      object inherits from [Object.prototype] ([inherited]) reads as a
      truthy value that is no record; the prototype object itself is not
      part of the state, so that a call is known by what it returns or
      throws and not by what it may leave on that object;
    - objects of a fixed shape are records, optional fields being
      options;
    - records are values: the [logs] array that a persisted snapshot
      shares with its tracked record is copied, not aliased (nothing proved
      here reads the logs of a snapshot);
    - the outside world (clock, disk, broker, random suffix) enters as
      explicit parameters, so every statement holds for all behaviours of
      it;
    - a registered callback is known by an identifier and by whether its
      call throws; what else it does is outside the program;
    - a job reaches the worker through BullMQ, which stores its data as
      JSON: a function does not survive that, data does. *)

From stdpp Require Import gmap strings list fin_maps pretty sorting.
From Stdlib Require Import ZArith Lia.

Set Default Proof Using "Type".

(** ** JavaScript-level notions shared by both programs *)

Module Js.

(** JSON-like data carried by tasks (payloads, results). *)
Inductive Value :=
| VUndefined
| VBool (b : bool)
| VNum (n : Z)
| VStr (s : string)
| VObj (fields : Fields)
with Fields :=
| FNil
| FCons (key : string) (v : Value) (rest : Fields).

(** JavaScript's truth value of a piece of data. *)
Definition is_truthy (v : Value) : bool :=
  match v with
  | VUndefined => false
  | VBool b => b
  | VNum n => negb (n =? 0)%Z
  | VStr s => negb (String.eqb s "")
  | VObj _ => true
  end.

(** A thrown value: an [Error] object, read through [e.message]. *)
Record Error := mkError { message : string }.

(** The names that every plain object answers to without owning them: the
    members of [Object.prototype].  [obj[name]] is then a function (the
    prototype itself for [__proto__]): truthy, and without any of the
    properties the program gives its records. *)
Definition object_prototype_names : list string :=
  ["constructor"; "__defineGetter__"; "__defineSetter__"; "hasOwnProperty";
   "__lookupGetter__"; "__lookupSetter__"; "isPrototypeOf"; "propertyIsEnumerable";
   "toString"; "valueOf"; "__proto__"; "toLocaleString"].

Definition inherited (name : string) : bool :=
  existsb (String.eqb name) object_prototype_names.

Inductive Outcome (A : Type) :=
| Returned (a : A)
| Thrown (e : Error).
Arguments Returned {A} a.
Arguments Thrown {A} e.

Section Monad.
Context {W Ev : Type}.

(** A computation reads and updates the state [W], emits events [Ev],
    and either returns or throws. *)
Definition Eff (A : Type) : Type := W -> Outcome A * W * list Ev.

Definition ret {A} (a : A) : Eff A := fun w => (Returned a, w, []).

Definition throw {A} (e : Error) : Eff A := fun w => (Thrown e, w, []).

Definition bind {A B} (m : Eff A) (k : A -> Eff B) : Eff B :=
  fun w =>
    match m w with
    | (Returned a, w1, ev1) =>
        match k a w1 with
        | (r, w2, ev2) => (r, w2, ev1 ++ ev2)
        end
    | (Thrown e, w1, ev1) => (Thrown e, w1, ev1)
    end.

(** [try { m } catch (e) { h e }] *)
Definition try_catch {A} (m : Eff A) (h : Error -> Eff A) : Eff A :=
  fun w =>
    match m w with
    | (Returned a, w1, ev1) => (Returned a, w1, ev1)
    | (Thrown e, w1, ev1) =>
        match h e w1 with
        | (r, w2, ev2) => (r, w2, ev1 ++ ev2)
        end
    end.

Definition get : Eff W := fun w => (Returned w, w, []).
Definition modify (f : W -> W) : Eff unit := fun w => (Returned tt, f w, []).
Definition emit (e : Ev) : Eff unit := fun w => (Returned tt, w, [e]).

(** [xs.forEach(f)]: an exception thrown by [f] ends the iteration. *)
Fixpoint forEach {A} (f : A -> Eff unit) (xs : list A) : Eff unit :=
  match xs with
  | [] => ret tt
  | x :: rest => bind (f x) (fun _ => forEach f rest)
  end.

Definition outcome {A} (r : Outcome A * W * list Ev) : Outcome A := r.1.1.
Definition world {A} (r : Outcome A * W * list Ev) : W := r.1.2.
Definition events {A} (r : Outcome A * W * list Ev) : list Ev := r.2.
End Monad.

Arguments Eff : clear implicits.

Declare Scope eff_scope.
Delimit Scope eff_scope with eff.
Notation "'let!' x ':=' m 'in' k" := (bind m (fun x => k))
  (at level 10, x name, m at level 100, k at level 200) : eff_scope.
Notation "'do!' m 'in' k" := (bind m (fun _ => k))
  (at level 10, m at level 100, k at level 200) : eff_scope.

End Js.

(** ** task-orchestrator.js *)

Module Orchestrator.
Import Js.
Local Open Scope eff_scope.

Inductive Status := running | completed | failed.

Global Instance Status_eq_dec : EqDecision Status.
Proof. solve_decision. Defined.

(** The object spread into a log entry after timestamp, level, message. *)
Inductive Meta :=
| MetaNone
| MetaPercent (percent : Z)
| MetaResult (result : Value)
| MetaError (error : string).

Record LogEntry := mkLog {
  timestamp : Z;
  level : string;
  log_message : string;
  meta : Meta
}.

(** An entry of [tracker.tracking]; the fields that [start] does not set
    are optional. *)
Record Tracked := mkTracked {
  taskId : string;
  data : Value;
  startedAt : Z;
  progress : Z;
  logs : list LogEntry;
  status : Status;
  completedAt : option Z;
  result : option Value;
  failedAt : option Z;
  error : option string;
  duration : option Z;
  retryAttempt : option nat
}.

(** An entry of [stateManager.state]: the spread of a tracked record plus
    [updatedAt]. *)
Record Persisted := mkPersisted {
  snapshot : Tracked;
  updatedAt : Z
}.

(** The second argument handed to a hook callback. *)
Inductive Payload :=
| PData (d : Value)
| PProgress (percent : Z) (msg : string)
| PResult (r : Value)
| PFail (error : string)
| PRetry (attempt : nat) (error : string).

(** A registered callback.  Its own effects lie outside the program; what
    matters here is that it was called, and whether the call throws. *)
Record Callback := mkCallback {
  cb_id : nat;
  cb_throws : string -> Payload -> option Error
}.

(** What a call of a callback may throw: an object with a [message], as
    [Error]s are; [null] or [undefined]; or any other value, whose
    [message] reads as [undefined]. *)
Inductive Raised :=
| RError (e : Error)
| RNullish
| ROther.

(** A callback as the hook loop meets it, whatever it throws.  The
    callbacks kept in the registry of this model ([Callback]) are those
    that throw [Error]s when they throw, as [observer_of] reads them. *)
Record Observer := mkObserver {
  ob_id : nat;
  ob_throws : string -> Payload -> option Raised
}.

Definition observer_of (cb : Callback) : Observer :=
  mkObserver (cb_id cb) (fun id p => RError <$> cb_throws cb id p).

Inductive Event :=
| Console (line : string)
| Fired (hook : string) (task : string) (p : Payload)
| Invoked (hook : string) (cb : nat) (task : string) (p : Payload).

Record World := mkWorld {
  hooks : gmap string (list Callback);
  tracking : gmap string Tracked;
  state : gmap string Persisted;
  state_file : option (gmap string Persisted);
  ticks : nat;
  saves : nat
}.

Definition set_hooks (f : gmap string (list Callback) -> gmap string (list Callback))
    (w : World) : World :=
  mkWorld (f (hooks w)) (tracking w) (state w) (state_file w) (ticks w) (saves w).
Definition set_tracking (f : gmap string Tracked -> gmap string Tracked)
    (w : World) : World :=
  mkWorld (hooks w) (f (tracking w)) (state w) (state_file w) (ticks w) (saves w).
Definition set_state (f : gmap string Persisted -> gmap string Persisted)
    (w : World) : World :=
  mkWorld (hooks w) (tracking w) (f (state w)) (state_file w) (ticks w) (saves w).
Definition set_state_file (v : option (gmap string Persisted)) (w : World) : World :=
  mkWorld (hooks w) (tracking w) (state w) v (ticks w) (saves w).
Definition set_ticks (n : nat) (w : World) : World :=
  mkWorld (hooks w) (tracking w) (state w) (state_file w) n (saves w).
Definition set_saves (n : nat) (w : World) : World :=
  mkWorld (hooks w) (tracking w) (state w) (state_file w) (ticks w) n.

Definition with_logs (f : list LogEntry -> list LogEntry) (t : Tracked) : Tracked :=
  mkTracked (taskId t) (data t) (startedAt t) (progress t) (f (logs t)) (status t)
    (completedAt t) (result t) (failedAt t) (error t) (duration t) (retryAttempt t).
Definition with_progress (p : Z) (t : Tracked) : Tracked :=
  mkTracked (taskId t) (data t) (startedAt t) p (logs t) (status t)
    (completedAt t) (result t) (failedAt t) (error t) (duration t) (retryAttempt t).
Definition with_retryAttempt (a : nat) (t : Tracked) : Tracked :=
  mkTracked (taskId t) (data t) (startedAt t) (progress t) (logs t) (status t)
    (completedAt t) (result t) (failedAt t) (error t) (duration t) (Some a).
Definition with_completed (at_ : Z) (r : Value) (d : Z) (t : Tracked) : Tracked :=
  mkTracked (taskId t) (data t) (startedAt t) (progress t) (logs t) completed
    (Some at_) (Some r) (failedAt t) (error t) (Some d) (retryAttempt t).
Definition with_failed (at_ : Z) (e : string) (d : Z) (t : Tracked) : Tracked :=
  mkTracked (taskId t) (data t) (startedAt t) (progress t) (logs t) failed
    (completedAt t) (result t) (Some at_) (Some e) (Some d) (retryAttempt t).

(** [{ ...old, ...new }] on tracked records: a field present in [new]
    wins, a field [new] lacks is inherited from [old]. *)
Definition inherit {A} (new old : option A) : option A :=
  match new with Some _ => new | None => old end.

Definition spread (old : option Persisted) (new : Tracked) : Tracked :=
  match old with
  | None => new
  | Some o =>
      let s := snapshot o in
      mkTracked (taskId new) (data new) (startedAt new) (progress new) (logs new)
        (status new)
        (inherit (completedAt new) (completedAt s))
        (inherit (result new) (result s))
        (inherit (failedAt new) (failedAt s))
        (inherit (error new) (error s))
        (inherit (duration new) (duration s))
        (inherit (retryAttempt new) (retryAttempt s))
  end.

Section Environment.
(** What the program reads from outside: [clock n] is the value of the
    [n]-th call of [Date.now()], [disk_ok n] tells whether the [n]-th
    [fs.writeFileSync] of the state file succeeds. *)
Variable clock : nat -> Z.
Variable disk_ok : nat -> bool.
(** [Math.round((i / n) * 100)] is computed on doubles.  It is the
    integer nearest to 100*i/n; only when 100*i/n lies exactly half way
    between two integers can the rounding error of the division decide
    the side, and [tie_up i n] says whether the result is then the
    upper one. *)
Variable tie_up : nat -> nat -> bool.

Abbreviation M := (Eff World Event).

Definition date_now : M Z :=
  fun w => (Returned (clock (ticks w)), set_ticks (S (ticks w)) w, []).

(** *** StateManager *)

Definition loadState (file : option (gmap string Persisted)) : gmap string Persisted :=
  match file with Some m => m | None => ∅ end.

Definition saveState : M unit :=
  fun w =>
    let w1 := set_saves (S (saves w)) w in
    if disk_ok (saves w)
    then (Returned tt, set_state_file (Some (state w)) w1, [])
    else (Returned tt, w1, [Console "[State] Save failed"]).

Definition sm_get (id : string) (w : World) : option Persisted := state w !! id.

Definition sm_set (id : string) (d : Tracked) : M unit :=
  let! now := date_now in
  do! modify (set_state (fun st => <[id := mkPersisted (spread (st !! id) d) now]> st)) in
  saveState.

Definition sm_delete (id : string) : M unit :=
  do! modify (set_state (delete id)) in
  saveState.

(** *** RuntimeTracker *)

(** The [TypeError]s of the program: reading [message] of a thrown
    [null], [push] of the missing [logs] of an inherited member, and
    calling the missing [push] or [forEach] of one. *)
Definition message_of_null : Error :=
  mkError "Cannot read properties of null (reading 'message')".
Definition push_of_undefined : Error :=
  mkError "Cannot read properties of undefined (reading 'push')".
Definition push_not_a_function : Error :=
  mkError "hooks[event].push is not a function".
Definition forEach_not_a_function : Error :=
  mkError "hooks[hookName].forEach is not a function".

(** The [catch] block of the hook loop:
    [console.error(`[Hook] ${hookName} error:`, e.message)]. *)
Definition report_hook_error (hookName : string) (v : Raised) : M unit :=
  match v with
  | RError e => emit (Console ("[Hook] " +:+ hookName +:+ " error: " +:+ message e))
  | ROther => emit (Console ("[Hook] " +:+ hookName +:+ " error: undefined"))
  | RNullish => throw message_of_null
  end.

(** [hooks[hookName].forEach(cb => { try { cb(taskId, data) } catch (e)
    { ... } })]: the [try] block is the call, the [catch] block is
    [report_hook_error]; what that block throws leaves the loop. *)
Definition dispatch (hookName id : string) (p : Payload) (obs : list Observer) : M unit :=
  forEach (fun ob =>
    do! emit (Invoked hookName (ob_id ob) id p) in
    match ob_throws ob id p with
    | Some v => report_hook_error hookName v
    | None => ret tt
    end) obs.

Definition triggerHook (hookName id : string) (p : Payload) : M unit :=
  let! w := get in
  match hooks w !! hookName with
  | Some cbs =>
      do! emit (Fired hookName id p) in
      dispatch hookName id p (map observer_of cbs)
  | None =>
      if inherited hookName then throw forEach_not_a_function else ret tt
  end.

(** The methods of the tracker open with [if (this.tracking[taskId])].
    For a task id that is tracked the guard holds; for a name inherited
    from [Object.prototype] it holds as well: the assignments of the body
    then land on the inherited member and [log] throws on its missing
    [logs]. *)
Definition log (id lvl msg : string) (mt : Meta) : M unit :=
  let! w := get in
  match tracking w !! id with
  | Some _ =>
      let! now := date_now in
      do! modify (set_tracking (alter (with_logs (fun l => l ++ [mkLog now lvl msg mt])) id)) in
      emit (Console ("[Track:" +:+ id +:+ "] [" +:+ lvl +:+ "] " +:+ msg))
  | None =>
      if inherited id
      then
        do! date_now in
        throw push_of_undefined
      else ret tt
  end.

Definition start (id : string) (d : Value) : M unit :=
  let! now := date_now in
  do! modify (set_tracking
        <[id := mkTracked id d now 0 [] running None None None None None None]>) in
  do! log id "TASK_START" "任务开始" MetaNone in
  triggerHook "onTaskStart" id (PData d).

Definition report_progress (id : string) (percent : Z) (msg : string) : M unit :=
  let! w := get in
  match tracking w !! id with
  | Some _ =>
      do! modify (set_tracking (alter (with_progress percent) id)) in
      do! log id "PROGRESS" msg (MetaPercent percent) in
      triggerHook "onTaskProgress" id (PProgress percent msg)
  | None =>
      if inherited id
      then
        do! log id "PROGRESS" msg (MetaPercent percent) in
        triggerHook "onTaskProgress" id (PProgress percent msg)
      else ret tt
  end.

Definition persist (id : string) : M unit :=
  let! w := get in
  match tracking w !! id with
  | Some t => sm_set id t
  | None => ret tt
  end.

Definition complete (id : string) (r : Value) : M unit :=
  let! w := get in
  match tracking w !! id with
  | Some t =>
      let! at_ := date_now in
      let! now := date_now in
      do! modify (set_tracking (alter (with_completed at_ r (now - startedAt t)) id)) in
      do! log id "COMPLETE" "任务完成" (MetaResult r) in
      do! triggerHook "onTaskComplete" id (PResult r) in
      persist id
  | None =>
      if inherited id
      then
        do! date_now in
        do! date_now in
        do! log id "COMPLETE" "任务完成" (MetaResult r) in
        do! triggerHook "onTaskComplete" id (PResult r) in
        persist id
      else ret tt
  end.

Definition fail (id : string) (err : string) : M unit :=
  let! w := get in
  match tracking w !! id with
  | Some t =>
      let! at_ := date_now in
      let! now := date_now in
      do! modify (set_tracking (alter (with_failed at_ err (now - startedAt t)) id)) in
      do! log id "ERROR" "任务失败" (MetaError err) in
      do! triggerHook "onTaskFail" id (PFail err) in
      persist id
  | None =>
      if inherited id
      then
        do! date_now in
        do! date_now in
        do! log id "ERROR" "任务失败" (MetaError err) in
        do! triggerHook "onTaskFail" id (PFail err) in
        persist id
      else ret tt
  end.

Definition retry (id : string) (attempt : nat) (err : string) : M unit :=
  let! w := get in
  match tracking w !! id with
  | Some _ =>
      do! modify (set_tracking (alter (with_retryAttempt attempt) id)) in
      do! log id "RETRY" ("重试 #" +:+ pretty attempt) (MetaError err) in
      triggerHook "onTaskRetry" id (PRetry attempt err)
  | None =>
      if inherited id
      then
        do! log id "RETRY" ("重试 #" +:+ pretty attempt) (MetaError err) in
        triggerHook "onTaskRetry" id (PRetry attempt err)
      else ret tt
  end.

Definition tracker_get (id : string) (w : World) : option Tracked := tracking w !! id.

(** *** Hook registration *)

Definition registerHook (event : string) (cb : Callback) : M unit :=
  let! w := get in
  match hooks w !! event with
  | Some cbs =>
      do! modify (set_hooks <[event := cbs ++ [cb]]>) in
      emit (Console ("[Hook] Registered: " +:+ event))
  | None =>
      if inherited event then throw push_not_a_function else ret tt
  end.

(** *** The worker callback *)

(** What the [execute] property of a step holds.  The worker callback
    is written for a function ([Callable]: [run a = Some e] means that the
    call during attempt [a] throws [e]).  A job that went through
    [queue.add] has been stored as JSON, though, so that what the worker of
    this program receives is data ([Plain]). *)
Inductive Exec :=
| Callable (run : nat -> option Error)
| Plain (v : Value).

(** A step of a multi-step task.  The pause of [delay] milliseconds
    after a step changes nothing in the state. *)
Record Step := mkStep {
  step_name : string;
  execute : option Exec;
  delay : option nat
}.

Record Job := mkJob {
  job_taskId : string;
  job_data : Value;
  job_steps : list Step
}.

(** [Math.round((i / n) * 100)] *)
Definition percent (i n : nat) : Z :=
  let q := (200 * Z.of_nat i + Z.of_nat n)%Z in
  let d := (2 * Z.of_nat n)%Z in
  if (q mod d =? 0)%Z && negb (tie_up i n)
  then (q / d - 1)%Z
  else (q / d)%Z.

Definition not_a_function : Error := mkError "step.execute is not a function".

(** [if (step.execute) await step.execute()]: a function is called; any
    other truthy value is called as well, which throws. *)
Definition step_error (attempt : nat) (st : Step) : option Error :=
  match execute st with
  | Some (Callable run) => run attempt
  | Some (Plain v) => if is_truthy v then Some not_a_function else None
  | None => None
  end.

Definition run_step (attempt : nat) (st : Step) : M unit :=
  match step_error attempt st with
  | Some e => throw e
  | None => ret tt
  end.

Definition step_message (i : nat) (st : Step) : string :=
  "Step " +:+ pretty (i + 1) +:+ ": " +:+ step_name st.

(** The [for] loop over [steps], from index [i] on; [n] is
    [steps.length]. *)
Fixpoint run_steps (attempt : nat) (id : string) (n i : nat) (steps : list Step)
    : M unit :=
  match steps with
  | [] => ret tt
  | st :: rest =>
      do! report_progress id (percent i n) (step_message i st) in
      do! run_step attempt st in
      run_steps attempt id n (S i) rest
  end.

Definition success : Value := VObj (FCons "success" (VBool true) FNil).

Definition processor (attempt : nat) (job : Job) : M Value :=
  let id := job_taskId job in
  do! emit (Console ("[Worker] Processing task: " +:+ id)) in
  do! start id (job_data job) in
  try_catch
    (do! run_steps attempt id (length (job_steps job)) 0 (job_steps job) in
     do! complete id success in
     ret success)
    (fun e =>
       do! fail id (message e) in
       throw e).

(** BullMQ runs the worker callback again after it throws, as long as
    the job has attempts left ([attempts] in the options of
    [queue.add]); attempts are numbered from 1. *)
Inductive JobState :=
| JobCompleted (v : Value)
| JobFailed (e : Error).

Fixpoint run_attempts (retries_left attempt : nat) (job : Job) : M JobState :=
  try_catch
    (let! v := processor attempt job in ret (JobCompleted v))
    (fun e =>
       match retries_left with
       | 0 => ret (JobFailed e)
       | S r => run_attempts r (S attempt) job
       end).

Definition run_job (attempts : nat) (job : Job) : M JobState :=
  run_attempts (attempts - 1) 1 job.

(** [createTask] enqueues with [attempts: 3]. *)
Definition createTask_attempts : nat := 3.

(** [JSON.stringify] leaves out a property that holds a function. *)
Definition stored_step (st : Step) : Step :=
  match execute st with
  | Some (Callable _) => mkStep (step_name st) None (delay st)
  | _ => st
  end.

(** [createTask(taskId, data, steps)], by the job the worker receives
    for it: [queue.add] stores [{ taskId, data, steps }] as JSON. *)
Definition createTask (id : string) (d : Value) (steps : list Step) : Job :=
  mkJob id d (map stored_step steps).

(** A task of four steps that all succeed, and a task of two steps
    whose second step carries [execute: true], which cannot be called:
    every attempt ends there. *)
Definition plain_step (name : string) : Step := mkStep name None None.

Definition four_step_job : Job :=
  mkJob "t4" VUndefined
    [plain_step "a"; plain_step "b"; plain_step "c"; plain_step "d"].

Definition failing_job : Job :=
  createTask "t1" VUndefined
    [plain_step "a"; mkStep "b" (Some (Plain (VBool true))) None].

(** The same task with a function for [execute], as a caller of
    [createTask] would write it. *)
Definition closure_steps : list Step :=
  [plain_step "a"; mkStep "b" (Some (Callable (fun _ => Some (mkError "boom")))) None].

(** A task of [n] steps that all succeed. *)
Definition long_job (n : nat) : Job :=
  mkJob "long" VUndefined (replicate n (plain_step "s")).

(** *** Module initialisation *)

Definition quiet (n : nat) : Callback := mkCallback n (fun _ _ => None).

Definition empty_hooks : gmap string (list Callback) :=
  <["onTaskStart" := []]> (<["onTaskProgress" := []]> (<["onTaskComplete" := []]>
    (<["onTaskFail" := []]> (<["onTaskRetry" := []]> ∅)))).

Definition load_module : M unit :=
  do! registerHook "onTaskStart" (quiet 0) in
  do! registerHook "onTaskProgress" (quiet 1) in
  do! registerHook "onTaskComplete" (quiet 2) in
  do! registerHook "onTaskFail" (quiet 3) in
  registerHook "onTaskRetry" (quiet 4).

(** The state once the module is loaded, [file] being the content of
    the state file found on disk. *)
Definition boot (file : option (gmap string Persisted)) : World :=
  world (load_module (mkWorld empty_hooks ∅ (loadState file) file 0 0)).

(** *** Operation sequences *)

Inductive Op :=
| OStart (id : string) (d : Value)
| OLog (id lvl msg : string) (mt : Meta)
| OProgress (id : string) (pct : Z) (msg : string)
| OComplete (id : string) (r : Value)
| OFail (id : string) (err : string)
| ORetry (id : string) (attempt : nat) (err : string)
| ORegister (event : string) (cb : Callback)
| OJob (attempts : nat) (job : Job).

Definition run_op (o : Op) : M unit :=
  match o with
  | OStart id d => start id d
  | OLog id lvl msg mt => log id lvl msg mt
  | OProgress id pct msg => report_progress id pct msg
  | OComplete id r => complete id r
  | OFail id err => fail id err
  | ORetry id a err => retry id a err
  | ORegister event cb => registerHook event cb
  | OJob attempts job => do! run_job attempts job in ret tt
  end.

Fixpoint run_ops (ops : list Op) (w : World) : World :=
  match ops with
  | [] => w
  | o :: rest => run_ops rest (world (run_op o w))
  end.

(** *** Observations *)

Definition fired (evs : list Event) : list (string * string * Payload) :=
  omap (fun e => match e with Fired h id p => Some (h, id, p) | _ => None end) evs.

Definition invoked (evs : list Event) : list (string * nat) :=
  omap (fun e => match e with Invoked h c _ _ => Some (h, c) | _ => None end) evs.

Definition count_fired (h id : string) (fs : list (string * string * Payload)) : nat :=
  length (filter (fun f => f.1.1 = h ∧ f.1.2 = id) fs).

Definition fired_count (h id : string) (evs : list Event) : nat :=
  count_fired h id (fired evs).

(** The percent values handed to the progress hook. *)
Definition progress_of (fs : list (string * string * Payload)) : list Z :=
  omap (fun f => match f with
                 | (h, _, PProgress p _) =>
                     if decide (h = "onTaskProgress") then Some p else None
                 | _ => None
                 end) fs.

Definition progress_values (evs : list Event) : list Z :=
  progress_of (fired evs).

Definition terminal (s : option Status) : bool :=
  match s with
  | Some completed | Some failed => true
  | _ => false
  end.

Definition mem_status (id : string) (w : World) : option Status :=
  (status ∘ snapshot) <$> state w !! id.

Definition disk_status (id : string) (w : World) : option Status :=
  match state_file w with
  | Some m => (status ∘ snapshot) <$> m !! id
  | None => None
  end.

(** The two places a snapshot is persisted to: [stateManager.state]
    and the state file. *)
Inductive Store := InMemory | OnDisk.

Definition persisted_status (s : Store) (id : string) (w : World) : option Status :=
  match s with
  | InMemory => mem_status id w
  | OnDisk => disk_status id w
  end.

(** The dispatches of [triggerHook h id p] in [w]: one when the
    registry has the key [h], none otherwise. *)
Definition hook_fire (w : World) (h id : string) (p : Payload)
    : list (string * string * Payload) :=
  match hooks w !! h with Some _ => [(h, id, p)] | None => [] end.

(** The error that ends the step loop of this attempt, if any, and the
    number of steps the loop reaches. *)
Fixpoint steps_error (attempt : nat) (steps : list Step) : option Error :=
  match steps with
  | [] => None
  | st :: rest =>
      match step_error attempt st with
      | Some e => Some e
      | None => steps_error attempt rest
      end
  end.

Fixpoint steps_started (attempt : nat) (steps : list Step) : nat :=
  match steps with
  | [] => 0
  | st :: rest =>
      S (match step_error attempt st with
         | Some _ => 0
         | None => steps_started attempt rest
         end)
  end.

Fixpoint steps_fired (w : World) (id : string) (attempt n i : nat) (steps : list Step)
    : list (string * string * Payload) :=
  match steps with
  | [] => []
  | st :: rest =>
      hook_fire w "onTaskProgress" id (PProgress (percent i n) (step_message i st)) ++
      match step_error attempt st with
      | Some _ => []
      | None => steps_fired w id attempt n (S i) rest
      end
  end.

(** The dispatches of one run of the worker callback, and of a whole
    job with [retries_left] further attempts after this one. *)
Definition attempt_fired (w : World) (attempt : nat) (job : Job)
    : list (string * string * Payload) :=
  let id := job_taskId job in
  hook_fire w "onTaskStart" id (PData (job_data job)) ++
  steps_fired w id attempt (length (job_steps job)) 0 (job_steps job) ++
  match steps_error attempt (job_steps job) with
  | Some e => hook_fire w "onTaskFail" id (PFail (message e))
  | None => hook_fire w "onTaskComplete" id (PResult success)
  end.

Fixpoint job_fired (w : World) (retries_left attempt : nat) (job : Job)
    : list (string * string * Payload) :=
  attempt_fired w attempt job ++
  match steps_error attempt (job_steps job), retries_left with
  | Some _, S r => job_fired w r (S attempt) job
  | _, _ => []
  end.

(** A dispatch that is not one of the retry hook. *)
Definition worker_hook (f : string * string * Payload) : Prop :=
  f.1.1 <> "onTaskRetry".

(** What the persisted state may do between two points of a run: with
    respect to one task id, a terminal status in memory stays terminal
    ([safe]), the file never knows a terminal status that memory lacks
    ([synced]), and a terminal status in both stays in both
    ([settled]). *)
Definition safe (id : string) (w : World) : Prop :=
  terminal (mem_status id w) = true.

Definition synced (id : string) (w : World) : Prop :=
  terminal (disk_status id w) = true -> terminal (mem_status id w) = true.

Definition settled (id : string) (w : World) : Prop :=
  terminal (mem_status id w) = true /\ terminal (disk_status id w) = true.

Definition legal (w w' : World) : Prop :=
  forall id,
    (safe id w -> safe id w') /\
    (synced id w -> synced id w') /\
    (settled id w -> settled id w').

(** What a tracker method may do to the state around it. *)
Record tracker_step (w w' : World) : Prop := mkTrackerStep {
  ts_hooks : hooks w' = hooks w;
  ts_tracked : forall id, is_Some (tracking w !! id) -> is_Some (tracking w' !! id);
  ts_legal : legal w w'
}.

(** What one dispatch over the callbacks [cbs] emits. *)
Definition hook_error_line (h : string) (e : Error) : string :=
  "[Hook] " +:+ h +:+ " error: " +:+ message e.

Definition dispatch_events (h id : string) (p : Payload) (cbs : list Callback)
    : list Event :=
  flat_map (fun cb =>
    Invoked h (cb_id cb) id p ::
    match cb_throws cb id p with
    | Some e => [Console (hook_error_line h e)]
    | None => []
    end) cbs.

Definition console_lines (evs : list Event) : list string :=
  omap (fun e => match e with Console l => Some l | _ => None end) evs.

(** The observers that one dispatch calls: all of them, up to and
    including the first whose call throws [null] or [undefined]. *)
Definition throws_nullish (id : string) (p : Payload) (ob : Observer) : bool :=
  match ob_throws ob id p with
  | Some RNullish => true
  | _ => false
  end.

Fixpoint reached (id : string) (p : Payload) (obs : list Observer) : list Observer :=
  match obs with
  | [] => []
  | ob :: rest => ob :: (if throws_nullish id p ob then [] else reached id p rest)
  end.

(** *** Status queries *)

(** What [queue.getJob] finds at the broker for a task id. *)
Record JobView := mkJobView {
  jv_id : string;
  jv_state : string;
  jv_progress : Z;
  jv_data : Job
}.

(** The answer of [getTaskStatus], by where it was found: a record of
    the tracker or of the state manager, the member of [Object.prototype]
    that an inherited name reads as, nothing, or the rejection of the
    broker branch, which calls [job.progress()] where BullMQ's job has a
    property [progress]. *)
Inductive StatusAnswer :=
| FromTracker (t : Tracked)
| FromState (p : Persisted)
| FromPrototype
| Rejected (e : Error)
| NotFound.

(** [getTaskStatus(taskId)]; [at_broker] is what [queue.getJob] would
    return. *)
Definition getTaskStatus (id : string) (at_broker : option JobView) (w : World)
    : StatusAnswer :=
  match tracker_get id w with
  | Some runtime => FromTracker runtime
  | None =>
      if inherited id then FromPrototype else
      match sm_get id w with
      | Some persisted => FromState persisted
      | None =>
          match at_broker with
          | Some job => Rejected (mkError "job.progress is not a function")
          | None => NotFound
          end
      end
  end.

(** *** The course of a job, read off its steps *)

(** How a job ends when it has [retries_left] attempts after the one
    numbered [attempt], and how many runs of the worker callback that
    takes. *)
Fixpoint attempts_result (retries_left attempt : nat) (job : Job) : JobState :=
  match steps_error attempt (job_steps job) with
  | None => JobCompleted success
  | Some e =>
      match retries_left with
      | 0 => JobFailed e
      | S r => attempts_result r (S attempt) job
      end
  end.




End Environment.

(** A concrete environment for examples: a clock that advances by one
    millisecond per reading, a disk that accepts every write, and ties
    rounded up. *)
Definition wall_clock (n : nat) : Z := 1700000000000 + Z.of_nat n.
Definition disk_fine (n : nat) : bool := true.
Definition ties_up (i n : nat) : bool := true.

(** Two observers of the progress hook, the first of which throws. *)
Definition thrower : Callback := mkCallback 7 (fun _ _ => Some (mkError "observer broke")).
Definition listener : Callback := mkCallback 8 (fun _ _ => None).

(** A callback written [() => { throw null }]. *)
Definition null_thrower : Observer := mkObserver 9 (fun _ _ => Some RNullish).

(** The five events of the registry. *)
Definition hook_names : list string :=
  ["onTaskStart"; "onTaskProgress"; "onTaskComplete"; "onTaskFail"; "onTaskRetry"].


End Orchestrator.

(** ** scripts/task-queue-redis.js *)

Module TaskQueue.
Import Js.
Local Open Scope eff_scope.

(** The [source] field of a record. *)
Inductive Backend := redis_src | file_src.

Global Instance Backend_eq_dec : EqDecision Backend.
Proof. solve_decision. Defined.

(** What producers hand to [enqueue]: [{ name, data }], and an [id] of
    its own when the task is a record that a queue returned earlier. *)
Record Task := mkTask {
  task_id : option string;
  name : option string;
  data : Value
}.

(** [{ ...task, queuedAt, source }], the data of a broker job. *)
Record JobData := mkJobData {
  jd_id : option string;
  jd_name : option string;
  jd_data : Value;
  jd_queuedAt : string;
  jd_source : Backend
}.

(** [{ id, ...task, queuedAt, source }], an element of the file queue and
    the result of the facade. *)
Record QRecord := mkRecord {
  id : string;
  rec_name : option string;
  rec_data : Value;
  queuedAt : string;
  source : Backend
}.

(** [{ id: i, ...d }]: the spread comes after [id], so that an [id]
    among the properties of [d] replaces [i]. *)
Definition with_id (i : string) (d : JobData) : QRecord :=
  mkRecord (default i (jd_id d)) (jd_name d) (jd_data d) (jd_queuedAt d) (jd_source d).

Record BrokerJob := mkBrokerJob {
  job_id : string;
  job_name : string;
  job_data : JobData
}.

(** The queue file: missing, unreadable as JSON, or holding an array of
    records (the only thing the program ever writes to it). *)
Inductive FileContent :=
| Absent
| Corrupt
| Stored (q : list QRecord).

Record World := mkWorld {
  redis : bool;            (* [redis] holds a client object *)
  queue : bool;            (* [queue] holds a BullMQ handle *)
  useRedis : bool;
  file : FileContent;
  waiting : list BrokerJob; (* the broker's waiting list *)
  issued : nat              (* job ids handed out by the broker *)
}.

Definition set_redis (b : bool) (w : World) : World :=
  mkWorld b (queue w) (useRedis w) (file w) (waiting w) (issued w).
Definition set_queue (b : bool) (w : World) : World :=
  mkWorld (redis w) b (useRedis w) (file w) (waiting w) (issued w).
Definition set_useRedis (b : bool) (w : World) : World :=
  mkWorld (redis w) (queue w) b (file w) (waiting w) (issued w).
Definition set_file (f : FileContent) (w : World) : World :=
  mkWorld (redis w) (queue w) (useRedis w) f (waiting w) (issued w).
Definition set_broker (jobs : list BrokerJob) (n : nat) (w : World) : World :=
  mkWorld (redis w) (queue w) (useRedis w) (file w) jobs n.

(** What one call meets outside the program: whether [redis.ping()]
    resolves, whether the BullMQ calls of the operation resolve, whether
    [fs.writeFileSync] succeeds (a failed write leaves the file as it
    was), the clock and the random suffix. *)
Record Env := mkEnv {
  ping_ok : bool;
  broker_ok : bool;
  write_ok : bool;
  now : Z;
  iso_now : string;
  rnd : string
}.

Inductive BrokerOp := Add | GetWaiting | Remove | GetWaitingCount.

Inductive Event :=
| Console (line : string)
| Connect
| Ping
| Broker (op : BrokerOp)
| FsRead
| FsWrite.

Abbreviation M := (Eff World Event).

(** *** Connection *)

Definition initRedis (connect_ok : bool) : M bool :=
  try_catch
    (do! modify (set_redis true) in
     do! emit Connect in
     do! (if connect_ok then ret tt else throw (mkError "connect ECONNREFUSED")) in
     do! modify (set_useRedis true) in
     do! emit (Console "[Redis] Connected successfully") in
     ret true)
    (fun err =>
       do! emit (Console ("[Redis] Failed to connect: " +:+ message err)) in
       do! modify (set_useRedis false) in
       ret false).

Definition checkRedis (e : Env) : M bool :=
  let! w := get in
  if redis w
  then try_catch
         (do! emit Ping in
          do! (if ping_ok e then ret tt else throw (mkError "Connection is closed")) in
          ret true)
         (fun _ => ret false)
  else ret false.

(** *** File queue *)

Definition readFileQueue : M (list QRecord) :=
  let! parsed :=
    try_catch
      (let! w := get in
       match file w with
       | Absent => ret None
       | Corrupt => do! emit FsRead in throw (mkError "Unexpected end of JSON input")
       | Stored q => do! emit FsRead in ret (Some q)
       end)
      (fun err =>
         do! emit (Console ("[FileQueue] Read error: " +:+ message err)) in
         ret None) in
  ret (default [] parsed).

Definition writeFileQueue (e : Env) (queueData : list QRecord) : M unit :=
  try_catch
    (do! emit FsWrite in
     if write_ok e
     then modify (set_file (Stored queueData))
     else throw (mkError "EACCES: permission denied"))
    (fun err => emit (Console ("[FileQueue] Write error: " +:+ message err))).

Definition file_id (e : Env) : string :=
  "file-" +:+ pretty (now e) +:+ "-" +:+ rnd e.

(** [{ id: `file-...`, ...task, queuedAt, source: 'file' }]: the id of
    the task, when it has one, replaces the generated one; [queuedAt] and
    [source] come after the spread and are always those written here. *)
Definition build_record (e : Env) (task : Task) : QRecord :=
  mkRecord (default (file_id e) (task_id task)) (name task) (data task) (iso_now e)
    file_src.

Definition fileEnqueue (e : Env) (task : Task) : M QRecord :=
  let! queue := readFileQueue in
  let taskWithId := build_record e task in
  do! writeFileQueue e (queue ++ [taskWithId]) in
  do! emit (Console ("[FileQueue] Task enqueued: " +:+ id taskWithId)) in
  ret taskWithId.

Definition fileDequeue (e : Env) : M (option QRecord) :=
  let! queue := readFileQueue in
  match queue with
  | [] => ret None
  | task :: rest =>
      do! writeFileQueue e rest in
      do! emit (Console ("[FileQueue] Task dequeued: " +:+ id task)) in
      ret (Some task)
  end.

Definition filePeek : M (option QRecord) :=
  let! queue := readFileQueue in
  ret (head queue).

(** *** Broker calls *)

Definition broker_call (e : Env) (op : BrokerOp) : M unit :=
  do! emit (Broker op) in
  if broker_ok e then ret tt else throw (mkError "Connection is closed").

Definition ensure_queue : M unit := modify (set_queue true).

Definition queue_add (e : Env) (jname : string) (d : JobData) : M BrokerJob :=
  do! broker_call e Add in
  let! w := get in
  let job := mkBrokerJob (pretty (S (issued w))) jname d in
  do! modify (set_broker (waiting w ++ [job]) (S (issued w))) in
  ret job.

Definition getWaiting (e : Env) : M (list BrokerJob) :=
  do! broker_call e GetWaiting in
  let! w := get in
  ret (waiting w).

Definition getWaitingCount (e : Env) : M nat :=
  do! broker_call e GetWaitingCount in
  let! w := get in
  ret (length (waiting w)).

Definition job_remove (e : Env) (job : BrokerJob) : M unit :=
  do! broker_call e Remove in
  let! w := get in
  modify (set_broker
    (filter (fun j => job_id j <> job_id job) (waiting w)) (issued w)).

(** [task.name || 'default'] *)
Definition job_name_of (task : Task) : string :=
  match name task with
  | Some s => if decide (s = "") then "default" else s
  | None => "default"
  end.

(** *** Unified interface *)

(** The [try] blocks of the four operations: what each does on the
    broker once the guard has let it through. *)
Definition attempt_enqueue (e : Env) (task : Task) : M (option QRecord) :=
  try_catch
    (do! ensure_queue in
     let taskData :=
       mkJobData (task_id task) (name task) (data task) (iso_now e) redis_src in
     let! job := queue_add e (job_name_of task) taskData in
     do! emit (Console ("[Queue] Task enqueued (Redis): " +:+ job_id job)) in
     ret (Some (with_id (job_id job) taskData)))
    (fun err =>
       do! emit (Console ("[Queue] Redis enqueue failed: " +:+ message err)) in
       ret None).

Definition attempt_dequeue (e : Env) : M (option QRecord) :=
  try_catch
    (do! ensure_queue in
     let! jobs := getWaiting e in
     match jobs with
     | job :: _ =>
         do! job_remove e job in
         do! emit (Console ("[Queue] Task dequeued (Redis): " +:+ job_id job)) in
         ret (Some (with_id (job_id job) (job_data job)))
     | [] => ret None
     end)
    (fun err =>
       do! emit (Console ("[Queue] Redis dequeue failed: " +:+ message err)) in
       ret None).

Definition attempt_peek (e : Env) : M (option QRecord) :=
  try_catch
    (do! ensure_queue in
     let! jobs := getWaiting e in
     match jobs with
     | job :: _ => ret (Some (with_id (job_id job) (job_data job)))
     | [] => ret None
     end)
    (fun err =>
       do! emit (Console ("[Queue] Redis peek failed: " +:+ message err)) in
       ret None).

Definition attempt_stats (e : Env) : M nat :=
  try_catch
    (do! ensure_queue in
     getWaitingCount e)
    (fun err =>
       do! emit (Console ("[Queue] Redis stats failed: " +:+ message err)) in
       ret 0).

Definition enqueue (e : Env) (task : Task) : M QRecord :=
  let! redisAvailable := checkRedis e in
  let! w := get in
  let! served :=
    (if redisAvailable && useRedis w then attempt_enqueue e task else ret None) in
  match served with
  | Some r => ret r
  | None =>
      do! emit (Console "[Queue] Using file queue fallback") in
      fileEnqueue e task
  end.

Definition dequeue (e : Env) : M (option QRecord) :=
  let! redisAvailable := checkRedis e in
  let! w := get in
  let! served :=
    (if redisAvailable && useRedis w then attempt_dequeue e else ret None) in
  match served with
  | Some r => ret (Some r)
  | None =>
      do! emit (Console "[Queue] Using file queue fallback") in
      fileDequeue e
  end.

Definition peek (e : Env) : M (option QRecord) :=
  let! redisAvailable := checkRedis e in
  let! w := get in
  let! served :=
    (if redisAvailable && useRedis w then attempt_peek e else ret None) in
  match served with
  | Some r => ret (Some r)
  | None => filePeek
  end.

Record Stats := mkStats {
  redis_available : bool;
  redis_waiting : nat;
  file_waiting : nat
}.

Definition getStats (e : Env) : M Stats :=
  let! redisAvailable := checkRedis e in
  let! w := get in
  let! count :=
    (if redisAvailable && useRedis w then attempt_stats e else ret 0) in
  let! fileQueue := readFileQueue in
  ret (mkStats redisAvailable count (length fileQueue)).

Definition init (connect_ok : bool) : M unit :=
  do! emit (Console "[TaskQueue] Initializing...") in
  do! initRedis connect_ok in
  do! emit (Console "[TaskQueue] Ready") in
  let! w := get in
  emit (Console ("[TaskQueue] Using: " +:+ (if useRedis w then "Redis" else "File Queue"))).

(** The module as loaded: no client, no handle, the flag off. *)
Definition loaded (f : FileContent) : World := mkWorld false false false f [] 0.

(** The four operations of the facade, as one family. *)
Inductive FacadeOp :=
| FEnqueue (task : Task)
| FDequeue
| FPeek
| FStats.

Inductive FacadeResult :=
| REnqueued (r : QRecord)
| RTaken (r : option QRecord)
| RStats (s : Stats).

Definition facade (op : FacadeOp) (e : Env) : M FacadeResult :=
  match op with
  | FEnqueue task => let! r := enqueue e task in ret (REnqueued r)
  | FDequeue => let! r := dequeue e in ret (RTaken r)
  | FPeek => let! r := peek e in ret (RTaken r)
  | FStats => let! s := getStats e in ret (RStats s)
  end.

(** *** Observations *)

Definition is_ping (ev : Event) : bool :=
  match ev with Ping => true | _ => false end.

Definition is_broker (ev : Event) : bool :=
  match ev with Broker _ => true | _ => false end.

Definition returned {A} (r : Outcome A * World * list Event) : option A :=
  match outcome r with Returned a => Some a | Thrown _ => None end.

Definition contents (w : World) : list QRecord :=
  match file w with Stored q => q | _ => [] end.

(** The guard that opens each of the four operations: probe, then try
    the broker when the probe succeeded and the flag is on. *)
Definition guarded {A} (e : Env) (attempt : M A) (dflt : A) : M (bool * A) :=
  let! redisAvailable := checkRedis e in
  let! w := get in
  let! served := (if redisAvailable && useRedis w then attempt else ret dflt) in
  ret (redisAvailable, served).

(** Events that reach neither the broker nor its probe, and events that
    are not a probe. *)
Definition local (ev : Event) : Prop := is_ping ev = false /\ is_broker ev = false.
Definition no_ping (ev : Event) : Prop := is_ping ev = false.

(** A computation that emits only events of a given kind and leaves the
    client object and the [useRedis] flag as they are. *)
Definition keeps {A} (P : Event -> Prop) (m : M A) : Prop :=
  forall w,
    Forall P (events (m w)) /\
    redis (world (m w)) = redis w /\
    useRedis (world (m w)) = useRedis w.

(** An attempt on the broker: it sends no ping, leaves the flags alone
    and does reach the broker. *)
Definition attempts_broker {A} (m : M A) : Prop :=
  keeps no_ping m /\ forall w, existsb is_broker (events (m w)) = true.

(** The claim that the backend is a function of the probe alone: two
    states in which the probe of this call has the same outcome reach
    the broker, or not, alike. *)
Definition backend_follows_probe_alone : Prop :=
  forall op e w1 w2,
    outcome (checkRedis e w1) = outcome (checkRedis e w2) ->
    existsb is_broker (events (facade op e w1))
    = existsb is_broker (events (facade op e w2)).

(** *** Sequences of calls on the file queue *)

Fixpoint enqueue_all (calls : list (Env * Task)) (w : World) : World :=
  match calls with
  | [] => w
  | (e, t) :: rest => enqueue_all rest (world (fileEnqueue e t w))
  end.

Fixpoint dequeue_all (envs : list Env) (w : World) : list (option QRecord) * World :=
  match envs with
  | [] => ([], w)
  | e :: rest =>
      let r := fileDequeue e w in
      let (rs, w') := dequeue_all rest (world r) in
      (mjoin (returned r) :: rs, w')
  end.

(** The claim of FIFO order for every sequence of enqueues: from an
    empty queue, as many dequeues return the records of the enqueues, in
    their order. *)
Definition fifo_for_every_sequence : Prop :=
  forall calls envs,
    length envs = length calls ->
    (dequeue_all envs (enqueue_all calls (loaded (Stored [])))).1
    = map (fun c => Some (build_record c.1 c.2)) calls.

(** The claim that the record returned after a failed write carries the
    id generated for it. *)
Definition returns_the_generated_id : Prop :=
  forall e task w,
    write_ok e = false ->
    id <$> returned (fileEnqueue e task w) = Some (file_id e).

(** *** Several processes on one queue file

    [fileEnqueue] and [fileDequeue] reach the file twice, through
    [fs.readFileSync] and [fs.writeFileSync]; between the two the
    operating system may run another process that shares the file.  A
    process is about to read ([Pending]), has read and is about to write
    ([Holding], with the array it parsed), or has returned. *)

Inductive Call :=
| CallEnqueue (e : Env) (task : Task)
| CallDequeue (e : Env).

Inductive Proc :=
| Pending (c : Call)
| Holding (c : Call) (q : list QRecord)
| Finished (r : option QRecord).

Definition parse (f : FileContent) : list QRecord :=
  match f with Stored q => q | _ => [] end.

Definition write (e : Env) (q : list QRecord) (f : FileContent) : FileContent :=
  if write_ok e then Stored q else f.

Definition proc_step (p : Proc) (f : FileContent) : option (Proc * FileContent) :=
  match p with
  | Pending c => Some (Holding c (parse f), f)
  | Holding (CallEnqueue e task) q =>
      Some (Finished (Some (build_record e task)), write e (q ++ [build_record e task]) f)
  | Holding (CallDequeue e) [] => Some (Finished None, f)
  | Holding (CallDequeue e) (task :: rest) => Some (Finished (Some task), write e rest f)
  | Finished _ => None
  end.

Definition System : Type := FileContent * list Proc.

(** Process [i] takes its next step. *)
Definition sys_step (i : nat) (s : System) : option System :=
  match s.2 !! i with
  | Some p =>
      match proc_step p s.1 with
      | Some (p', f') => Some (f', <[i := p']> s.2)
      | None => None
      end
  | None => None
  end.

Fixpoint run_schedule (sched : list nat) (s : System) : option System :=
  match sched with
  | [] => Some s
  | i :: rest =>
      match sys_step i s with
      | Some s' => run_schedule rest s'
      | None => None
      end
  end.

Definition holding (p : Proc) : bool :=
  match p with Holding _ _ => true | _ => false end.

(** The call run as the sequential program runs it. *)
Definition run_call (c : Call) (w : World) : option QRecord * FileContent :=
  match c with
  | CallEnqueue e task =>
      let r := fileEnqueue e task w in (returned r, file (world r))
  | CallDequeue e =>
      let r := fileDequeue e w in (mjoin (returned r), file (world r))
  end.

(** The claim of mutual exclusion: however the processes are scheduled,
    at most one of them is between its read and its write. *)
Definition one_mutator_at_a_time : Prop :=
  forall sched f procs s,
    Forall (fun p => holding p = false) procs ->
    run_schedule sched (f, procs) = Some s ->
    length (filter (fun p => holding p = true) s.2) <= 1.

(** *** Sample data *)

Definition task_a : Task := mkTask None (Some "a") (VStr "first").
Definition task_b : Task := mkTask None (Some "b") (VStr "second").

(** A record taken from a queue earlier and handed in again. *)
Definition requeued : Task := mkTask (Some "file-1699999999000-q1w2e3r4t") (Some "a") (VStr "first").

Definition live : Env := mkEnv true true true 1700000000000 "2023-11-14T22:13:20.000Z" "k3j9x2m1q".
Definition later : Env := mkEnv true true true 1700000000500 "2023-11-14T22:13:20.500Z" "p0o9i8u7y".
Definition broker_down : Env := mkEnv false false true 1700000001000 "2023-11-14T22:13:21.000Z" "a1b2c3d4e".
Definition disk_full : Env := mkEnv false false false 1700000002000 "2023-11-14T22:13:22.000Z" "z9y8x7w6v".

(** *** Further observations *)

(** A series of calls of the facade, each with the environment it meets;
    the events of all of them, in order. *)
Fixpoint facade_calls (calls : list (FacadeOp * Env)) (w : World) : World * list Event :=
  match calls with
  | [] => (w, [])
  | (op, e) :: rest =>
      let r := facade op e w in
      let (w', evs) := facade_calls rest (world r) in
      (w', events r ++ evs)
  end.

(** The conditions under which the broker serves a call: a client
    exists, the ping succeeds, the flag is on, and the broker answers. *)
Definition broker_serves (e : Env) (w : World) : bool :=
  redis w && ping_ok e && useRedis w && broker_ok e.

Definition is_fs_write (ev : Event) : bool :=
  match ev with FsWrite => true | _ => false end.

End TaskQueue.

(** ** heartbeat.js *)

Module Heartbeat.
Import Js.
Local Open Scope eff_scope.
Local Open Scope Z_scope.

Definition CC_LIVENESS_TIMEOUT : Z := 30000.
Definition MAX_RESTART_ATTEMPTS : nat := 3.
Definition RESTART_COOLDOWN : Z := 60000.

(** What [performHeartbeat] saves and returns. *)
Record HeartbeatData := mkData {
  timestamp : Z;
  data_lastHeartbeat : option Z;
  ccAlive : bool;
  ccInfo : option string;
  data_restartAttempts : nat;
  uptime : option Z
}.

(** The variables of the module, and the heartbeat file: [None] when it
    is missing or cannot be parsed, and otherwise a record as
    [saveHeartbeat] writes them, the only writer of the file. *)
Record World := mkWorld {
  lastHeartbeat : option Z;
  restartAttempts : nat;
  lastRestartTime : Z;
  heartbeat_file : option HeartbeatData
}.

Definition set_lastHeartbeat (v : option Z) (w : World) : World :=
  mkWorld v (restartAttempts w) (lastRestartTime w) (heartbeat_file w).
Definition set_restartAttempts (n : nat) (w : World) : World :=
  mkWorld (lastHeartbeat w) n (lastRestartTime w) (heartbeat_file w).
Definition set_lastRestartTime (t : Z) (w : World) : World :=
  mkWorld (lastHeartbeat w) (restartAttempts w) t (heartbeat_file w).
Definition set_heartbeat_file (d : option HeartbeatData) (w : World) : World :=
  mkWorld (lastHeartbeat w) (restartAttempts w) (lastRestartTime w) d.

(** What one heartbeat meets: the clock when it begins and when
    [restartCC] reads it, what [pgrep] finds at the check and three seconds
    after a spawn, and whether the heartbeat file can be written. *)
Record Env := mkEnv {
  now : Z;
  alive : bool;
  info : option string;
  restart_now : Z;
  started : bool;
  save_ok : bool
}.

Inductive Event :=
| Log (level message : string)
| Pgrep
| Kill
| Spawn.

Abbreviation M := (Eff World Event).

(** [log]: a failure to append to the log file is ignored. *)
Definition log (level message : string) : M unit := emit (Log level message).

(** JavaScript's truth value of a stored timestamp: [null] and 0 are
    false. *)
Definition truthy (t : option Z) : bool :=
  match t with
  | Some z => negb (z =? 0)
  | None => false
  end.

Definition saveHeartbeat (e : Env) (data : HeartbeatData) : M unit :=
  try_catch
    (if save_ok e
     then modify (set_heartbeat_file (Some data))
     else throw (mkError "ENOSPC: no space left on device"))
    (fun err => log "ERROR" ("Failed to save heartbeat: " +:+ message err)).

Definition readHeartbeat : M (option HeartbeatData) :=
  let! w := get in
  ret (heartbeat_file w).

Definition isCCAlive (found : bool) : M bool :=
  do! emit Pgrep in
  ret found.

Definition getCCInfo (e : Env) : M (option string) :=
  do! emit Pgrep in
  ret (info e).

Definition startCC (e : Env) : M bool :=
  do! log "INFO" "Starting CC process..." in
  do! emit Spawn in
  let! alive := isCCAlive (started e) in
  if alive
  then do! log "INFO" "CC process started successfully" in ret true
  else do! log "WARN" "CC process may not have started" in ret false.

Definition restartCC (e : Env) : M bool :=
  let now := restart_now e in
  let! w := get in
  if now - lastRestartTime w <? RESTART_COOLDOWN
  then do! log "WARN" "Restart cooldown active, skipping" in ret false
  else if (MAX_RESTART_ATTEMPTS <=? restartAttempts w)%nat
  then do! log "ERROR" "Max restart attempts reached" in ret false
  else
    do! modify (set_restartAttempts (S (restartAttempts w))) in
    do! modify (set_lastRestartTime now) in
    do! log "INFO" ("Restarting CC (attempt " +:+ pretty (S (restartAttempts w)) +:+ "/"
                    +:+ pretty MAX_RESTART_ATTEMPTS +:+ ")...") in
    do! emit Kill in
    let! started := startCC e in
    do! (if started then modify (set_restartAttempts 0) else ret tt) in
    ret started.

Definition performHeartbeat (e : Env) : M HeartbeatData :=
  let now := now e in
  let! read := readHeartbeat in
  let stored := read ≫= data_lastHeartbeat in
  do! log "DEBUG" "Performing heartbeat check..." in
  let! ccAlive := isCCAlive (alive e) in
  let! ccInfo := getCCInfo e in
  let! w := get in
  let heartbeatData :=
    mkData now stored ccAlive ccInfo (restartAttempts w)
      (match stored with
       | Some t => if truthy stored then Some (now - t) else None
       | None => None
       end) in
  do! saveHeartbeat e heartbeatData in
  do! modify (set_lastHeartbeat (Some now)) in
  do! (if truthy stored && (CC_LIVENESS_TIMEOUT <? now - default 0 stored)
       then
         do! log "WARN" ("CC liveness timeout detected ("
                         +:+ pretty ((now - default 0 stored) / 1000) +:+ "s)") in
         let! restarted := restartCC e in
         if restarted
         then log "INFO" "CC auto-restarted successfully"
         else log "ERROR" "CC auto-restart failed"
       else if negb ccAlive
       then
         do! log "WARN" "CC process not running, attempting start..." in
         do! startCC e in
         ret tt
       else log "DEBUG" ("CC alive: " +:+ default "null" ccInfo)) in
  ret heartbeatData.

(** The heartbeats of the interval timer, one after the other: a
    heartbeat is over within a few seconds, and the timer fires every
    ten. *)
Fixpoint heartbeats (envs : list Env) (w : World) : World * list Event :=
  match envs with
  | [] => (w, [])
  | e :: rest =>
      let r := performHeartbeat e w in
      let (w', evs) := heartbeats rest (world r) in
      (w', events r ++ evs)
  end.

(** The module as loaded, with the heartbeat file found on disk. *)
Definition loaded (f : option HeartbeatData) : World := mkWorld None 0 0 f.

(** *** Observations *)

(** Whether a heartbeat that begins in [w] takes the liveness-timeout
    branch, and whether [restartCC] then declines to restart. *)
Definition timed_out (e : Env) (w : World) : bool :=
  let stored := heartbeat_file w ≫= data_lastHeartbeat in
  truthy stored && (CC_LIVENESS_TIMEOUT <? now e - default 0 stored).

Definition declines (e : Env) (w : World) : bool :=
  (restart_now e - lastRestartTime w <? RESTART_COOLDOWN)
  || (MAX_RESTART_ATTEMPTS <=? restartAttempts w)%nat.

(** What [performHeartbeat] saves. *)
Definition report (e : Env) (w : World) : HeartbeatData :=
  let stored := heartbeat_file w ≫= data_lastHeartbeat in
  mkData (now e) stored (alive e) (info e) (restartAttempts w)
    (match stored with
     | Some t => if truthy stored then Some (now e - t) else None
     | None => None
     end).

(** The world after the save and the assignment to [lastHeartbeat]. *)
Definition saved (e : Env) (w : World) : World :=
  set_lastHeartbeat (Some (now e))
    (if save_ok e then set_heartbeat_file (Some (report e w)) w else w).

Definition is_kill (ev : Event) : bool :=
  match ev with Kill => true | _ => false end.

Definition is_spawn (ev : Event) : bool :=
  match ev with Spawn => true | _ => false end.

(** The [lastHeartbeat] that the next heartbeat will read from the
    file. *)
Definition stored_lastHeartbeat (w : World) : option Z :=
  heartbeat_file w ≫= data_lastHeartbeat.

(** *** Sample data *)

Definition cc_dead : Env := mkEnv 1700000100000 false None 1700000100010 false true.
Definition cc_fine : Env := mkEnv 1700000100000 true (Some "4242 bash run_cc.sh") 1700000100010 true true.
Definition stale_file : HeartbeatData :=
  mkData 1700000000000 (Some 1700000000000) true None 0 None.

End Heartbeat.

(** * Properties of task-orchestrator.js *)

Module OrchestratorFacts.
Import Js Orchestrator.
Local Open Scope eff_scope.

(** *** Running the hook loop *)

Section Dispatch.

Lemma forEach_callbacks_run h id p cbs (w : World) :
  dispatch h id p (map observer_of cbs) w
  = (Returned tt, w, dispatch_events h id p cbs).
Proof.
  unfold dispatch. set (f := fun ob : Observer => _).
  induction cbs as [|cb cbs IH]; [reflexivity|].
  assert (Hstep : f (observer_of cb) w
                  = (Returned tt, w,
                     Invoked h (cb_id cb) id p ::
                     match cb_throws cb id p with
                     | Some e => [Console (hook_error_line h e)]
                     | None => []
                     end)).
  { unfold f, bind, emit, hook_error_line. cbn [observer_of ob_throws ob_id].
    by destruct (cb_throws cb id p). }
  cbn [map forEach]. unfold bind. rewrite Hstep, IH.
  unfold dispatch_events. reflexivity.
Qed.

(** A dispatch under a name that is none of [Object.prototype]'s. *)
Lemma triggerHook_run h id p w :
  inherited h = false ->
  triggerHook h id p w
  = (Returned tt, w,
     match hooks w !! h with
     | Some cbs => Fired h id p :: dispatch_events h id p cbs
     | None => []
     end).
Proof.
  intros Hh. unfold triggerHook, bind at 1, get.
  destruct (hooks w !! h) as [cbs|]; [|by rewrite Hh].
  unfold bind at 1, emit at 1. rewrite forEach_callbacks_run. reflexivity.
Qed.

Lemma invoked_dispatch_events h id p cbs :
  invoked (dispatch_events h id p cbs) = map (fun cb => (h, cb_id cb)) cbs.
Proof.
  induction cbs as [|cb cbs IH]; [reflexivity|].
  unfold dispatch_events in *. cbn [flat_map map].
  unfold invoked in *. rewrite omap_app, IH.
  destruct (cb_throws cb id p); reflexivity.
Qed.

Lemma fired_dispatch_events h id p cbs : fired (dispatch_events h id p cbs) = [].
Proof.
  induction cbs as [|cb cbs IH]; [reflexivity|].
  unfold dispatch_events in *. cbn [flat_map].
  unfold fired in *. rewrite omap_app, IH.
  destruct (cb_throws cb id p); reflexivity.
Qed.

Lemma console_dispatch_events h id p cbs :
  console_lines (dispatch_events h id p cbs)
  = omap (fun cb => hook_error_line h <$> cb_throws cb id p) cbs.
Proof.
  induction cbs as [|cb cbs IH]; [reflexivity|].
  unfold dispatch_events in *. cbn [flat_map omap].
  unfold console_lines in *. rewrite omap_app, IH. cbn.
  destruct (cb_throws cb id p); reflexivity.
Qed.

Lemma registerHook_run event cb w :
  registerHook event cb w
  = match hooks w !! event with
    | Some cbs => (Returned tt, set_hooks <[event := cbs ++ [cb]]> w,
                   [Console ("[Hook] Registered: " +:+ event)])
    | None =>
        (if inherited event then Thrown push_not_a_function else Returned tt, w, [])
    end.
Proof.
  unfold registerHook, bind at 1, get.
  destruct (hooks w !! event); [reflexivity|]. by destruct (inherited event).
Qed.
End Dispatch.

(** *** Legal evolutions of the persisted state *)

Lemma legal_refl w : legal w w.
Proof. intros id. tauto. Qed.

Lemma legal_trans w1 w2 w3 : legal w1 w2 -> legal w2 w3 -> legal w1 w3.
Proof.
  intros H12 H23 id. destruct (H12 id) as (?&?&?), (H23 id) as (?&?&?). tauto.
Qed.

Lemma legal_same_store w w' :
  state w' = state w -> state_file w' = state_file w -> legal w w'.
Proof.
  intros Hs Hf id. unfold safe, synced, settled, mem_status, disk_status.
  rewrite Hs, Hf. tauto.
Qed.

Lemma terminal_insert (st : gmap string Persisted) id0 p id :
  status (snapshot p) <> running ->
  terminal ((status ∘ snapshot) <$> st !! id) = true ->
  terminal ((status ∘ snapshot) <$> <[id0 := p]> st !! id) = true.
Proof.
  intros Hp H. destruct (decide (id0 = id)) as [->|Hne].
  - rewrite lookup_insert_eq. cbn. destruct (status (snapshot p)); congruence.
  - rewrite lookup_insert_ne by done. exact H.
Qed.

Lemma legal_persist w w' id0 p :
  status (snapshot p) <> running ->
  state w' = <[id0 := p]> (state w) ->
  state_file w' = state_file w \/ state_file w' = Some (state w') ->
  legal w w'.
Proof.
  intros Hp Hs Hf id.
  assert (Hsafe : safe id w -> safe id w').
  { unfold safe, mem_status. rewrite Hs. by apply terminal_insert. }
  unfold synced, settled. split; [exact Hsafe|].
  destruct Hf as [Hf|Hf].
  - unfold disk_status. rewrite Hf. fold (disk_status id w).
    unfold safe in Hsafe. tauto.
  - assert (Hd : disk_status id w' = mem_status id w')
      by (unfold disk_status; rewrite Hf; reflexivity).
    rewrite Hd. unfold safe in Hsafe. tauto.
Qed.

Lemma status_spread old t : status (spread old t) = status t.
Proof. destruct old; reflexivity. Qed.

Lemma tracker_step_refl w : tracker_step w w.
Proof. split; [reflexivity|auto|apply legal_refl]. Qed.

Lemma tracker_step_trans w1 w2 w3 :
  tracker_step w1 w2 -> tracker_step w2 w3 -> tracker_step w1 w3.
Proof.
  intros [H1 T1 L1] [H2 T2 L2]. split.
  - congruence.
  - auto.
  - eapply legal_trans; eassumption.
Qed.

Lemma fired_app e1 e2 : fired (e1 ++ e2) = fired e1 ++ fired e2.
Proof. apply omap_app. Qed.

Lemma fired_trigger w h id p :
  fired match hooks w !! h with
        | Some cbs => Fired h id p :: dispatch_events h id p cbs
        | None => []
        end
  = hook_fire w h id p.
Proof.
  unfold hook_fire. destruct (hooks w !! h) as [cbs|]; [|reflexivity].
  change (fired (Fired h id p :: dispatch_events h id p cbs))
    with ((h, id, p) :: fired (dispatch_events h id p cbs)).
  by rewrite fired_dispatch_events.
Qed.

(** *** Running the tracker methods *)

Section Runs.
Variable clock : nat -> Z.
Variable disk_ok : nat -> bool.
Variable tie_up : nat -> nat -> bool.

Lemma log_run id lvl msg mt w :
  log clock id lvl msg mt w
  = match tracking w !! id with
    | Some _ =>
        (Returned tt,
         set_tracking
           (alter (with_logs (fun l => l ++ [mkLog (clock (ticks w)) lvl msg mt])) id)
           (set_ticks (S (ticks w)) w),
         [Console ("[Track:" +:+ id +:+ "] [" +:+ lvl +:+ "] " +:+ msg)])
    | None =>
        if inherited id
        then (Thrown push_of_undefined, set_ticks (S (ticks w)) w, [])
        else (Returned tt, w, [])
    end.
Proof.
  unfold log, bind at 1, get. destruct (tracking w !! id); [reflexivity|].
  by destruct (inherited id).
Qed.

Lemma sm_set_run id d w :
  sm_set clock disk_ok id d w
  = let st := <[id := mkPersisted (spread (state w !! id) d) (clock (ticks w))]> (state w) in
    let w1 := set_saves (S (saves w))
                (set_state (fun _ => st) (set_ticks (S (ticks w)) w)) in
    if disk_ok (saves w)
    then (Returned tt, set_state_file (Some st) w1, [])
    else (Returned tt, w1, [Console "[State] Save failed"]).
Proof.
  unfold sm_set, bind at 1, date_now at 1, bind at 1, modify at 1, saveState.
  cbn [saves set_state set_ticks state].
  destruct (disk_ok (saves w)); reflexivity.
Qed.

Ltac projections :=
  cbn [tracking set_state set_tracking set_ticks set_saves set_state_file set_hooks
       hooks state ticks saves state_file].

Ltac tracked_lookup H :=
  projections; rewrite ?lookup_alter_eq, ?lookup_insert_eq, ?H;
  cbn [fmap option_fmap option_map].

Lemma alter_keeps_tracked (f : Tracked -> Tracked) id0 (m : gmap string Tracked) id :
  is_Some (m !! id) -> is_Some (alter f id0 m !! id).
Proof. intros H. by apply lookup_alter_is_Some. Qed.

Lemma insert_keeps_tracked (t : Tracked) id0 (m : gmap string Tracked) id :
  is_Some (m !! id) -> is_Some (<[id0 := t]> m !! id).
Proof. intros H. rewrite lookup_insert_is_Some. destruct (decide (id0 = id)); auto. Qed.

(** *** The methods on a task id that has no record *)

Lemma log_untracked id lvl msg mt w :
  tracking w !! id = None ->
  log clock id lvl msg mt w
  = if inherited id
    then (Thrown push_of_undefined, set_ticks (S (ticks w)) w, [])
    else (Returned tt, w, []).
Proof. intros H. by rewrite log_run, H. Qed.

Lemma report_progress_untracked id pct msg w :
  tracking w !! id = None ->
  report_progress clock id pct msg w
  = if inherited id
    then (Thrown push_of_undefined, set_ticks (S (ticks w)) w, [])
    else (Returned tt, w, []).
Proof.
  intros H. unfold report_progress, bind at 1, get. rewrite H.
  destruct (inherited id) eqn:Hi; [|reflexivity].
  unfold bind. by rewrite log_untracked, Hi.
Qed.

Lemma retry_untracked id attempt err w :
  tracking w !! id = None ->
  retry clock id attempt err w
  = if inherited id
    then (Thrown push_of_undefined, set_ticks (S (ticks w)) w, [])
    else (Returned tt, w, []).
Proof.
  intros H. unfold retry, bind at 1, get. rewrite H.
  destruct (inherited id) eqn:Hi; [|reflexivity].
  unfold bind. by rewrite log_untracked, Hi.
Qed.

Lemma complete_untracked id r w :
  tracking w !! id = None ->
  complete clock disk_ok id r w
  = if inherited id
    then (Thrown push_of_undefined, set_ticks (S (S (S (ticks w)))) w, [])
    else (Returned tt, w, []).
Proof.
  intros H. unfold complete, bind at 1, get. rewrite H.
  destruct (inherited id) eqn:Hi; [|reflexivity].
  unfold bind at 1, date_now at 1. unfold bind at 1, date_now at 1.
  unfold bind at 1. by rewrite log_untracked, Hi.
Qed.

Lemma fail_untracked id err w :
  tracking w !! id = None ->
  fail clock disk_ok id err w
  = if inherited id
    then (Thrown push_of_undefined, set_ticks (S (S (S (ticks w)))) w, [])
    else (Returned tt, w, []).
Proof.
  intros H. unfold fail, bind at 1, get. rewrite H.
  destruct (inherited id) eqn:Hi; [|reflexivity].
  unfold bind at 1, date_now at 1. unfold bind at 1, date_now at 1.
  unfold bind at 1. by rewrite log_untracked, Hi.
Qed.

Lemma tracker_step_ticks n w : tracker_step w (set_ticks n w).
Proof. split; [reflexivity|auto|by apply legal_same_store]. Qed.

(** What a method does on a task id without a record, whichever way its
    guard goes: it moves the clock at most, and dispatches nothing. *)
Lemma untracked_facts {A} (o o' : Outcome A) (w w1 : World) (b : bool) :
  exists o2 w' evs,
    (if b then (o, set_ticks (ticks w1) w, []) else (o', w, []))
    = (o2, w', evs) /\
    tracker_step w w' /\ fired evs = [].
Proof.
  destruct b; eexists _, _, _; (split; [reflexivity|]); split;
    auto using tracker_step_ticks, tracker_step_refl.
Qed.

(** *** The methods in general *)

Lemma log_facts id lvl msg mt w :
  exists o w' evs,
    log clock id lvl msg mt w = (o, w', evs) /\
    tracker_step w w' /\ fired evs = [] /\
    (forall t, tracking w !! id = Some t ->
       o = Returned tt /\
       exists t', tracking w' !! id = Some t' /\ status t' = status t).
Proof.
  destruct (tracking w !! id) as [t|] eqn:H.
  - rewrite log_run, H.
    eexists _, _, _. split; [reflexivity|]. split; [|split; [reflexivity|]].
    + split; projections; [reflexivity| |by apply legal_same_store].
      intros id'. apply alter_keeps_tracked.
    + intros t' [= <-]. split; [reflexivity|]. tracked_lookup H.
      eexists. split; reflexivity.
  - rewrite log_untracked by done.
    destruct (untracked_facts (Thrown push_of_undefined) (Returned tt) w
                (set_ticks (S (ticks w)) w) (inherited id)) as (o & w' & evs & E & T & F).
    cbn [ticks set_ticks] in E. rewrite E.
    exists o, w', evs. split; [reflexivity|]. split; [exact T|]. split; [exact F|].
    intros t [=].
Qed.

Lemma start_facts id d w :
  exists w' evs,
    start clock id d w = (Returned tt, w', evs) /\
    tracker_step w w' /\ is_Some (tracking w' !! id) /\
    fired evs = hook_fire w "onTaskStart" id (PData d).
Proof.
  unfold start, bind at 1, date_now at 1, bind at 1, modify at 1.
  unfold bind at 1. rewrite log_run. tracked_lookup I.
  rewrite triggerHook_run by reflexivity. projections.
  eexists _, _. split; [reflexivity|]. split; [|split].
  - split; projections; [reflexivity| |by apply legal_same_store].
    intros id' H. by apply alter_keeps_tracked, insert_keeps_tracked.
  - tracked_lookup I. by eexists.
  - rewrite !fired_app, fired_trigger. reflexivity.
Qed.

Lemma report_progress_facts id pct msg w :
  exists o w' evs,
    report_progress clock id pct msg w = (o, w', evs) /\
    tracker_step w w' /\
    fired evs = match tracking w !! id with
                | Some _ => hook_fire w "onTaskProgress" id (PProgress pct msg)
                | None => []
                end /\
    (is_Some (tracking w !! id) -> o = Returned tt).
Proof.
  destruct (tracking w !! id) as [t|] eqn:H.
  2:{ rewrite report_progress_untracked by done.
      destruct (untracked_facts (Thrown push_of_undefined) (Returned tt) w
                  (set_ticks (S (ticks w)) w) (inherited id)) as (o & w' & evs & E & T & F).
      cbn [ticks set_ticks] in E. rewrite E.
      exists o, w', evs. split; [reflexivity|]. split; [exact T|]. split; [exact F|].
      by intros [? [=]]. }
  unfold report_progress, bind at 1, get. rewrite H.
  unfold bind at 1, modify at 1. unfold bind at 1. rewrite log_run. tracked_lookup H.
  rewrite triggerHook_run by reflexivity. projections.
  eexists _, _, _. split; [reflexivity|]. split; [|split; [|reflexivity]].
  - split; projections; [reflexivity| |by apply legal_same_store].
    intros id' H'. by do 2 apply alter_keeps_tracked.
  - rewrite !fired_app, fired_trigger. reflexivity.
Qed.

Lemma retry_facts id attempt err w :
  exists o w' evs,
    retry clock id attempt err w = (o, w', evs) /\
    tracker_step w w' /\
    fired evs = match tracking w !! id with
                | Some _ => hook_fire w "onTaskRetry" id (PRetry attempt err)
                | None => []
                end /\
    (is_Some (tracking w !! id) -> o = Returned tt).
Proof.
  destruct (tracking w !! id) as [t|] eqn:H.
  2:{ rewrite retry_untracked by done.
      destruct (untracked_facts (Thrown push_of_undefined) (Returned tt) w
                  (set_ticks (S (ticks w)) w) (inherited id)) as (o & w' & evs & E & T & F).
      cbn [ticks set_ticks] in E. rewrite E.
      exists o, w', evs. split; [reflexivity|]. split; [exact T|]. split; [exact F|].
      by intros [? [=]]. }
  unfold retry, bind at 1, get. rewrite H.
  unfold bind at 1, modify at 1. unfold bind at 1. rewrite log_run. tracked_lookup H.
  rewrite triggerHook_run by reflexivity. projections.
  eexists _, _, _. split; [reflexivity|]. split; [|split; [|reflexivity]].
  - split; projections; [reflexivity| |by apply legal_same_store].
    intros id' H'. by do 2 apply alter_keeps_tracked.
  - rewrite !fired_app, fired_trigger. reflexivity.
Qed.

Lemma complete_facts id r w :
  exists o w' evs,
    complete clock disk_ok id r w = (o, w', evs) /\
    tracker_step w w' /\
    fired evs = match tracking w !! id with
                | Some _ => hook_fire w "onTaskComplete" id (PResult r)
                | None => []
                end /\
    (is_Some (tracking w !! id) -> o = Returned tt).
Proof.
  destruct (tracking w !! id) as [t|] eqn:H.
  2:{ rewrite complete_untracked by done.
      destruct (untracked_facts (Thrown push_of_undefined) (Returned tt) w
                  (set_ticks (S (S (S (ticks w)))) w) (inherited id))
        as (o & w' & evs & E & T & F).
      cbn [ticks set_ticks] in E. rewrite E.
      exists o, w', evs. split; [reflexivity|]. split; [exact T|]. split; [exact F|].
      by intros [? [=]]. }
  unfold complete, bind at 1, get. rewrite H.
  unfold bind at 1, date_now at 1. unfold bind at 1, date_now at 1.
  unfold bind at 1, modify at 1. unfold bind at 1. rewrite log_run. tracked_lookup H.
  unfold bind at 1. rewrite triggerHook_run by reflexivity.
  unfold persist, bind at 1, get. tracked_lookup H. rewrite sm_set_run. projections.
  cbv zeta.
  destruct (disk_ok (saves w)); eexists _, _, _; (split; [reflexivity|]);
    (split; [|split; [|reflexivity]]);
    try (rewrite !fired_app, fired_trigger; cbn [fired omap list_omap app];
         by rewrite ?app_nil_r).
  all: split; projections; [reflexivity
    | intros id' H'; by do 2 apply alter_keeps_tracked
    | eapply legal_persist; [ | projections; reflexivity | projections; auto ];
      cbn [snapshot]; rewrite status_spread; discriminate].
Qed.

Lemma fail_facts id err w :
  exists o w' evs,
    fail clock disk_ok id err w = (o, w', evs) /\
    tracker_step w w' /\
    fired evs = match tracking w !! id with
                | Some _ => hook_fire w "onTaskFail" id (PFail err)
                | None => []
                end /\
    (is_Some (tracking w !! id) -> o = Returned tt).
Proof.
  destruct (tracking w !! id) as [t|] eqn:H.
  2:{ rewrite fail_untracked by done.
      destruct (untracked_facts (Thrown push_of_undefined) (Returned tt) w
                  (set_ticks (S (S (S (ticks w)))) w) (inherited id))
        as (o & w' & evs & E & T & F).
      cbn [ticks set_ticks] in E. rewrite E.
      exists o, w', evs. split; [reflexivity|]. split; [exact T|]. split; [exact F|].
      by intros [? [=]]. }
  unfold fail, bind at 1, get. rewrite H.
  unfold bind at 1, date_now at 1. unfold bind at 1, date_now at 1.
  unfold bind at 1, modify at 1. unfold bind at 1. rewrite log_run. tracked_lookup H.
  unfold bind at 1. rewrite triggerHook_run by reflexivity.
  unfold persist, bind at 1, get. tracked_lookup H. rewrite sm_set_run. projections.
  cbv zeta.
  destruct (disk_ok (saves w)); eexists _, _, _; (split; [reflexivity|]);
    (split; [|split; [|reflexivity]]);
    try (rewrite !fired_app, fired_trigger; cbn [fired omap list_omap app];
         by rewrite ?app_nil_r).
  all: split; projections; [reflexivity
    | intros id' H'; by do 2 apply alter_keeps_tracked
    | eapply legal_persist; [ | projections; reflexivity | projections; auto ];
      cbn [snapshot]; rewrite status_spread; discriminate].
Qed.

Lemma hook_fire_hooks w w' h id p :
  hooks w' = hooks w -> hook_fire w' h id p = hook_fire w h id p.
Proof. unfold hook_fire. by intros ->. Qed.

Lemma steps_fired_hooks w w' id attempt n steps :
  hooks w' = hooks w ->
  forall i, steps_fired tie_up w' id attempt n i steps
            = steps_fired tie_up w id attempt n i steps.
Proof.
  intros H. induction steps as [|st rest IH]; intros i; [reflexivity|].
  cbn [steps_fired]. rewrite (hook_fire_hooks w w') by done.
  destruct (step_error attempt st); [reflexivity|]. by rewrite IH.
Qed.

Lemma run_steps_facts attempt id n steps :
  forall i w, is_Some (tracking w !! id) ->
  exists w' evs,
    run_steps clock tie_up attempt id n i steps w
    = (match steps_error attempt steps with
       | Some e => Thrown e
       | None => Returned tt
       end, w', evs) /\
    tracker_step w w' /\
    fired evs = steps_fired tie_up w id attempt n i steps.
Proof.
  induction steps as [|st rest IH]; intros i w Hid.
  { exists w, []. split; [reflexivity|]. split; [apply tracker_step_refl|reflexivity]. }
  cbn [run_steps steps_error steps_fired]. unfold bind at 1.
  destruct (report_progress_facts id (percent tie_up i n) (step_message i st) w)
    as (o1 & w1 & ev1 & -> & T1 & F1 & R1).
  rewrite (R1 Hid). clear R1.
  destruct Hid as [t Hid]. rewrite Hid in F1.
  unfold bind at 1, run_step. destruct (step_error attempt st) as [e|].
  - exists w1, (ev1 ++ []). split; [reflexivity|]. split; [exact T1|].
    by rewrite !app_nil_r.
  - unfold ret at 1.
    destruct (IH (S i) w1) as (w2 & ev2 & -> & T2 & F2).
    { apply T1. by eexists. }
    exists w2, (ev1 ++ [] ++ ev2). split; [reflexivity|].
    split; [eapply tracker_step_trans; eassumption|].
    rewrite !fired_app, F1, F2. cbn [fired omap list_omap app].
    by rewrite (steps_fired_hooks w w1) by apply T1.
Qed.

Lemma processor_facts attempt job w :
  exists w' evs,
    processor clock disk_ok tie_up attempt job w
    = (match steps_error attempt (job_steps job) with
       | Some e => Thrown e
       | None => Returned success
       end, w', evs) /\
    tracker_step w w' /\
    fired evs = attempt_fired tie_up w attempt job.
Proof.
  unfold processor, attempt_fired. cbv zeta.
  unfold bind at 1, emit at 1. unfold bind at 1.
  destruct (start_facts (job_taskId job) (job_data job) w)
    as (w1 & ev1 & -> & T1 & Hid & F1).
  unfold try_catch. unfold bind at 1.
  destruct (run_steps_facts attempt (job_taskId job) (length (job_steps job))
              (job_steps job) 0 w1 Hid) as (w2 & ev2 & -> & T2 & F2).
  assert (Hid2 : is_Some (tracking w2 !! job_taskId job)) by by apply T2.
  destruct Hid2 as [t2 Hid2].
  assert (H2 : hooks w2 = hooks w) by (destruct T1, T2; congruence).
  destruct (steps_error attempt (job_steps job)) as [e|].
  - unfold bind at 1.
    destruct (fail_facts (job_taskId job) (message e) w2)
      as (o3 & w3 & ev3 & -> & T3 & F3 & R3).
    rewrite R3 by by eexists.
    unfold throw. eexists _, _. split; [reflexivity|]. split.
    { eauto using tracker_step_trans. }
    rewrite Hid2 in F3.
    rewrite !fired_app, F1, F2, F3. cbn [fired omap list_omap app].
    rewrite (steps_fired_hooks w w1) by apply T1.
    rewrite (hook_fire_hooks w w2) by done. by rewrite !app_nil_r.
  - unfold bind at 1.
    destruct (complete_facts (job_taskId job) success w2)
      as (o3 & w3 & ev3 & -> & T3 & F3 & R3).
    rewrite R3 by by eexists.
    unfold ret. eexists _, _. split; [reflexivity|]. split.
    { eauto using tracker_step_trans. }
    rewrite Hid2 in F3.
    rewrite !fired_app, F1, F2, F3. cbn [fired omap list_omap app].
    rewrite (steps_fired_hooks w w1) by apply T1.
    rewrite (hook_fire_hooks w w2) by done. by rewrite !app_nil_r.
Qed.

Lemma attempt_fired_hooks w w' attempt job :
  hooks w' = hooks w ->
  attempt_fired tie_up w' attempt job = attempt_fired tie_up w attempt job.
Proof.
  intros H. unfold attempt_fired.
  rewrite (steps_fired_hooks w w') by done.
  destruct (steps_error attempt (job_steps job));
    by rewrite !(hook_fire_hooks w w') by done.
Qed.

Lemma job_fired_hooks w w' job :
  hooks w' = hooks w ->
  forall retries_left attempt,
    job_fired tie_up w' retries_left attempt job
    = job_fired tie_up w retries_left attempt job.
Proof.
  intros H. induction retries_left as [|r IH]; intros attempt; cbn [job_fired];
    rewrite (attempt_fired_hooks w w') by done; [reflexivity|].
  destruct (steps_error attempt (job_steps job)); [|reflexivity]. by rewrite IH.
Qed.

Lemma run_attempts_facts job :
  forall retries_left attempt w,
  exists r w' evs,
    run_attempts clock disk_ok tie_up retries_left attempt job w = (Returned r, w', evs) /\
    tracker_step w w' /\
    fired evs = job_fired tie_up w retries_left attempt job.
Proof.
  induction retries_left as [|r IH]; intros attempt w; cbn [run_attempts job_fired];
    unfold try_catch; unfold bind at 1;
    destruct (processor_facts attempt job w) as (w1 & ev1 & -> & T1 & F1);
    destruct (steps_error attempt (job_steps job)) as [e|].
  - unfold ret. eexists _, _, _. split; [reflexivity|]. split; [done|].
    by rewrite fired_app, F1.
  - unfold ret. eexists _, _, _. split; [reflexivity|]. split; [done|].
    by rewrite fired_app, F1.
  - destruct (IH (S attempt) w1) as (r2 & w2 & ev2 & -> & T2 & F2).
    eexists _, _, _. split; [reflexivity|].
    split; [eauto using tracker_step_trans|].
    rewrite fired_app, F1, F2. by rewrite (job_fired_hooks w w1) by apply T1.
  - unfold ret. eexists _, _, _. split; [reflexivity|]. split; [done|].
    by rewrite fired_app, F1.
Qed.

(** Every operation of the program moves the persisted state legally. *)
Lemma run_op_legal o w : legal w (world (run_op clock disk_ok tie_up o w)).
Proof.
  destruct o; cbn [run_op].
  - destruct (start_facts id d w) as (w' & evs & -> & T & _). apply T.
  - destruct (log_facts id lvl msg mt w) as (o & w' & evs & -> & T & _). apply T.
  - destruct (report_progress_facts id pct msg w) as (o & w' & evs & -> & T & _). apply T.
  - destruct (complete_facts id r w) as (o & w' & evs & -> & T & _). apply T.
  - destruct (fail_facts id err w) as (o & w' & evs & -> & T & _). apply T.
  - destruct (retry_facts id attempt err w) as (o & w' & evs & -> & T & _). apply T.
  - rewrite registerHook_run. destruct (hooks w !! event); [|apply legal_refl].
    by apply legal_same_store.
  - unfold bind at 1, run_job.
    destruct (run_attempts_facts job (attempts - 1) 1 w) as (r & w' & evs & -> & T & _).
    apply T.
Qed.

Lemma run_ops_legal ops : forall w, legal w (run_ops clock disk_ok tie_up ops w).
Proof.
  induction ops as [|o rest IH]; intros w; [apply legal_refl|].
  cbn [run_ops]. eapply legal_trans; [apply run_op_legal|apply IH].
Qed.

Lemma boot_store file :
  state (boot file) = loadState file /\ state_file (boot file) = file.
Proof. split; reflexivity. Qed.

Lemma boot_synced file id : synced id (boot file).
Proof.
  unfold synced, disk_status, mem_status.
  destruct (boot_store file) as [-> ->]. by destruct file.
Qed.

(** *** Arithmetic of the progress percentage *)

Lemma percent_le_quotient i n :
  (percent tie_up i n <= (200 * Z.of_nat i + Z.of_nat n) / (2 * Z.of_nat n))%Z.
Proof. unfold percent. cbv zeta. case_match; lia. Qed.

Lemma percent_le_100 i n : i <= n -> (percent tie_up i n <= 100)%Z.
Proof.
  intros Hi. pose proof (percent_le_quotient i n) as Hq.
  destruct (decide (n = 0)) as [->|Hn].
  { change (2 * Z.of_nat 0)%Z with 0%Z in Hq. rewrite Z.div_0_r in Hq. lia. }
  assert ((200 * Z.of_nat i + Z.of_nat n) / (2 * Z.of_nat n) < 101)%Z; [|lia].
  apply Z.div_lt_upper_bound; lia.
Qed.

Lemma percent_lt_100 i n : i < n -> n < 200 -> (percent tie_up i n < 100)%Z.
Proof.
  intros Hi Hn. pose proof (percent_le_quotient i n) as Hq.
  assert ((200 * Z.of_nat i + Z.of_nat n) / (2 * Z.of_nat n) < 100)%Z; [|lia].
  apply Z.div_lt_upper_bound; lia.
Qed.

Lemma percent_mono i j n :
  i <= j -> (percent tie_up i n <= percent tie_up j n)%Z.
Proof.
  intros Hij. destruct (decide (i = j)) as [->|Hne]; [done|].
  pose proof (percent_le_quotient i n) as Hq.
  etrans; [exact Hq|]. unfold percent. cbv zeta.
  destruct (decide (n = 0)) as [->|Hn].
  { change (2 * Z.of_nat 0)%Z with 0%Z. rewrite !Z.div_0_r, Z.mod_0_r.
    case_match eqn:Htie; [|done].
    apply andb_true_iff in Htie as [Hmod _]. apply Z.eqb_eq in Hmod. lia. }
  case_match eqn:Htie.
  - apply andb_true_iff in Htie as [Hmod _]. apply Z.eqb_eq in Hmod.
    pose proof (Z.div_mod (200 * Z.of_nat j + Z.of_nat n) (2 * Z.of_nat n)) as Hj.
    rewrite Hmod, Z.add_0_r in Hj.
    assert ((200 * Z.of_nat i + Z.of_nat n) / (2 * Z.of_nat n)
            < (200 * Z.of_nat j + Z.of_nat n) / (2 * Z.of_nat n))%Z; [|lia].
    apply Z.div_lt_upper_bound; lia.
  - apply Z.div_le_mono; lia.
Qed.

Lemma sorted_map_seq (f : nat -> Z) :
  (forall i j, i <= j -> (f i <= f j)%Z) ->
  forall k i, StronglySorted Z.le (map f (seq i k)).
Proof.
  intros Hf. induction k as [|k IH]; intros i; cbn [seq map]; constructor.
  - apply IH.
  - apply Forall_forall. intros v Hv. apply list_elem_of_In, in_map_iff in Hv.
    destruct Hv as (j & <- & Hj). apply in_seq in Hj. apply Hf. lia.
Qed.

Lemma steps_started_le attempt steps : steps_started attempt steps <= length steps.
Proof.
  induction steps as [|st rest IH]; cbn [steps_started length]; [done|].
  destruct (step_error attempt st); lia.
Qed.

(** *** Reading the dispatches *)

Lemma progress_of_app f1 f2 : progress_of (f1 ++ f2) = progress_of f1 ++ progress_of f2.
Proof. apply omap_app. Qed.

Lemma progress_of_other w h id p :
  h <> "onTaskProgress" -> progress_of (hook_fire w h id p) = [].
Proof.
  intros Hh. unfold hook_fire. destruct (hooks w !! h); [|reflexivity].
  unfold progress_of. cbn. destruct p; try reflexivity. by case_decide.
Qed.

Lemma progress_of_steps_fired w id attempt n steps :
  forall i,
    progress_of (steps_fired tie_up w id attempt n i steps)
    = match hooks w !! "onTaskProgress" with
      | Some _ => map (fun j => percent tie_up j n) (seq i (steps_started attempt steps))
      | None => []
      end.
Proof.
  induction steps as [|st rest IH]; intros i; cbn [steps_fired steps_started].
  { by destruct (hooks w !! "onTaskProgress"). }
  rewrite progress_of_app. unfold hook_fire at 1.
  destruct (step_error attempt st).
  - destruct (hooks w !! "onTaskProgress"); reflexivity.
  - rewrite IH. destruct (hooks w !! "onTaskProgress"); reflexivity.
Qed.

Lemma count_fired_app h id f1 f2 :
  count_fired h id (f1 ++ f2) = count_fired h id f1 + count_fired h id f2.
Proof. unfold count_fired. by rewrite filter_app, length_app. Qed.

Lemma count_fired_other w h h' id id' p :
  h' <> h -> count_fired h id (hook_fire w h' id' p) = 0.
Proof.
  intros Hh. unfold hook_fire. destruct (hooks w !! h'); [|reflexivity].
  unfold count_fired. rewrite filter_cons_False; [reflexivity|]. cbn. tauto.
Qed.

Lemma count_fired_same w h id p :
  is_Some (hooks w !! h) -> count_fired h id (hook_fire w h id p) = 1.
Proof.
  intros [cbs H]. unfold hook_fire. rewrite H.
  unfold count_fired. rewrite filter_cons_True; [reflexivity|]. cbn. tauto.
Qed.

Lemma count_fired_steps w h id id' attempt n steps :
  h <> "onTaskProgress" ->
  forall i, count_fired h id (steps_fired tie_up w id' attempt n i steps) = 0.
Proof.
  intros Hh. induction steps as [|st rest IH]; intros i; cbn [steps_fired]; [done|].
  rewrite count_fired_app, count_fired_other by done.
  destruct (step_error attempt st); [reflexivity|]. by rewrite IH.
Qed.

Lemma names_hook_fire w h id p :
  Forall (fun f => f.1.1 = h) (hook_fire w h id p).
Proof.
  unfold hook_fire. destruct (hooks w !! h); repeat constructor.
Qed.

Lemma worker_hook_fire w h id p :
  h <> "onTaskRetry" -> Forall worker_hook (hook_fire w h id p).
Proof.
  intros Hh. eapply Forall_impl; [apply names_hook_fire|].
  intros f Hf. unfold worker_hook. congruence.
Qed.

Lemma worker_hook_steps w id attempt n steps :
  forall i, Forall worker_hook (steps_fired tie_up w id attempt n i steps).
Proof.
  induction steps as [|st rest IH]; intros i; cbn [steps_fired]; [constructor|].
  apply Forall_app. split; [by apply worker_hook_fire|].
  destruct (step_error attempt st); [constructor|apply IH].
Qed.

Lemma worker_hook_attempt w attempt job :
  Forall worker_hook (attempt_fired tie_up w attempt job).
Proof.
  unfold attempt_fired. rewrite !Forall_app. split; [by apply worker_hook_fire|].
  split; [apply worker_hook_steps|].
  destruct (steps_error attempt (job_steps job)); by apply worker_hook_fire.
Qed.

Lemma worker_hook_job w job :
  forall retries_left attempt,
    Forall worker_hook (job_fired tie_up w retries_left attempt job).
Proof.
  induction retries_left as [|r IH]; intros attempt; cbn [job_fired];
    apply Forall_app; (split; [apply worker_hook_attempt|]).
  - destruct (steps_error attempt (job_steps job)); constructor.
  - destruct (steps_error attempt (job_steps job)); [apply IH|constructor].
Qed.

Lemma percent_nonneg i n : 0 < n -> (0 <= percent tie_up i n)%Z.
Proof.
  intros Hn. unfold percent. cbv zeta. case_match eqn:Htie.
  - apply andb_true_iff in Htie as [Hmod _]. apply Z.eqb_eq in Hmod.
    pose proof (Z.div_mod (200 * Z.of_nat i + Z.of_nat n) (2 * Z.of_nat n)) as Hq.
    rewrite Hmod, Z.add_0_r in Hq.
    assert (0 < (200 * Z.of_nat i + Z.of_nat n) / (2 * Z.of_nat n))%Z; [|lia].
    nia.
  - apply Z.div_pos; lia.
Qed.

Lemma progress_values_processor attempt job w :
  progress_values (events (processor clock disk_ok tie_up attempt job w))
  = match hooks w !! "onTaskProgress" with
    | Some _ =>
        map (fun j => percent tie_up j (length (job_steps job)))
            (seq 0 (steps_started attempt (job_steps job)))
    | None => []
    end.
Proof.
  destruct (processor_facts attempt job w) as (w' & evs & -> & _ & F).
  unfold progress_values, events. cbn [snd]. rewrite F. unfold attempt_fired.
  rewrite !progress_of_app, progress_of_other, progress_of_steps_fired by done.
  destruct (steps_error attempt (job_steps job));
    rewrite progress_of_other by done; apply app_nil_r.
Qed.

Lemma fired_run_job attempts job w :
  fired (events (run_job clock disk_ok tie_up attempts job w))
  = job_fired tie_up w (attempts - 1) 1 job.
Proof.
  unfold run_job.
  by destruct (run_attempts_facts job (attempts - 1) 1 w) as (r & w' & evs & -> & _ & F).
Qed.

Lemma count_fail_failing_job w job :
  is_Some (hooks w !! "onTaskFail") ->
  (forall a, steps_error a (job_steps job) <> None) ->
  forall retries_left attempt,
    count_fired "onTaskFail" (job_taskId job) (job_fired tie_up w retries_left attempt job)
    = S retries_left /\
    count_fired "onTaskComplete" (job_taskId job)
      (job_fired tie_up w retries_left attempt job) = 0.
Proof.
  intros Hh Hfail.
  assert (Hone : forall attempt,
    count_fired "onTaskFail" (job_taskId job) (attempt_fired tie_up w attempt job) = 1 /\
    count_fired "onTaskComplete" (job_taskId job) (attempt_fired tie_up w attempt job) = 0).
  { intros attempt. unfold attempt_fired. specialize (Hfail attempt).
    rewrite !count_fired_app, !count_fired_steps, !(count_fired_other _ _ "onTaskStart")
      by done.
    destruct (steps_error attempt (job_steps job)); [|done].
    by rewrite count_fired_same, count_fired_other. }
  induction retries_left as [|r IH]; intros attempt; cbn [job_fired];
    rewrite !count_fired_app; destruct (Hone attempt) as [-> ->];
    pose proof (Hfail attempt); destruct (steps_error attempt (job_steps job)); try done.
  destruct (IH (S attempt)) as [-> ->]. done.
Qed.

(** ** The claims about the tracker, the hooks and the worker *)

(** C2 (as the code behaves).  Under BullMQ's retries the worker callback
    runs once per attempt, and each failing run calls [tracker.fail]:
    for a task that fails on every one of its [attempts] attempts the
    fail hook is dispatched [attempts] times, not once; the complete
    hook is never dispatched. *)
Theorem fail_hook_fires_on_every_attempt attempts job w :
  1 <= attempts ->
  is_Some (hooks w !! "onTaskFail") ->
  (forall a, steps_error a (job_steps job) <> None) ->
  let evs := events (run_job clock disk_ok tie_up attempts job w) in
  fired_count "onTaskFail" (job_taskId job) evs = attempts /\
  fired_count "onTaskComplete" (job_taskId job) evs = 0.
Proof.
  intros Ha Hh Hfail evs. unfold fired_count, evs. rewrite fired_run_job.
  destruct (count_fail_failing_job w job Hh Hfail (attempts - 1) 1) as [-> ->].
  split; [lia|done].
Qed.

(** C3 (as the code behaves).  The worker never calls [tracker.retry]:
    whatever the job and the number of attempts, no dispatch of the
    retry hook occurs while the job is run. *)
Theorem worker_never_fires_retry attempts job w :
  Forall (fun f => f.1.1 <> "onTaskRetry")
         (fired (events (run_job clock disk_ok tie_up attempts job w))).
Proof. rewrite fired_run_job. apply worker_hook_job. Qed.

(** C4 (amended).  Within one run of the worker callback the percent
    values handed to the progress hook are non-decreasing and lie
    between 0 and 100; they are all below 100 when the task has fewer
    than 200 steps; a four-step task reports 0, 25, 50, 75. *)
Theorem progress_is_monotone_and_bounded attempt job w :
  let vals := progress_values (events (processor clock disk_ok tie_up attempt job w)) in
  StronglySorted Z.le vals /\
  Forall (fun v => (0 <= v <= 100)%Z) vals /\
  (200 <= length (job_steps job) \/ Forall (fun v => (v < 100)%Z) vals) /\
  progress_values (events (processor clock disk_ok tie_up attempt four_step_job (boot None)))
  = [0; 25; 50; 75]%Z.
Proof.
  intros vals. unfold vals. rewrite !progress_values_processor.
  pose proof (steps_started_le attempt (job_steps job)) as Hk.
  split; [|split; [|split]].
  - destruct (hooks w !! "onTaskProgress"); [|constructor].
    apply sorted_map_seq. intros i j. apply percent_mono.
  - destruct (hooks w !! "onTaskProgress"); [|constructor].
    apply Forall_forall. intros v Hv. apply list_elem_of_In, in_map_iff in Hv.
    destruct Hv as (j & <- & Hj). apply in_seq in Hj.
    split; [apply percent_nonneg|apply percent_le_100]; lia.
  - destruct (decide (200 <= length (job_steps job))) as [|Hn]; [by left|right].
    destruct (hooks w !! "onTaskProgress"); [|constructor].
    apply Forall_forall. intros v Hv. apply list_elem_of_In, in_map_iff in Hv.
    destruct Hv as (j & <- & Hj). apply in_seq in Hj.
    apply percent_lt_100; lia.
  - reflexivity.
Qed.

(** Over the registry, whose callbacks throw [Error]s when they throw, a
    dispatch returns normally, leaves the state alone and calls every
    callback registered for the event, in registration order, whichever
    of them throw; each throw is logged; and registering appends at the
    end of the event's list. *)
Lemma dispatch_over_registry h id p w cb :
  inherited h = false ->
  let r := triggerHook h id p w in
  let cbs := default [] (hooks w !! h) in
  outcome r = Returned tt /\ world r = w /\
  invoked (events r) = map (fun c => (h, cb_id c)) cbs /\
  console_lines (events r) = omap (fun c => hook_error_line h <$> cb_throws c id p) cbs /\
  default [] (hooks (world (registerHook h cb w)) !! h)
  = match hooks w !! h with Some l => l ++ [cb] | None => [] end.
Proof.
  intros Hh r cbs. unfold r, cbs. rewrite triggerHook_run, registerHook_run by done.
  unfold outcome, world, events. cbn [fst snd].
  split; [reflexivity|]. split; [reflexivity|].
  destruct (hooks w !! h) as [l|] eqn:Hl; cbn [default].
  - split; [apply invoked_dispatch_events|].
    split; [apply console_dispatch_events|].
    cbn [fst snd hooks set_hooks]. by rewrite lookup_insert_eq.
  - cbn [fst snd]. by rewrite Hl.
Qed.

(** One turn of the hook loop. *)
Lemma dispatch_cons h id p ob obs w :
  dispatch h id p (ob :: obs) w
  = match ob_throws ob id p with
    | Some RNullish => (Thrown message_of_null, w, [Invoked h (ob_id ob) id p])
    | Some (RError e) =>
        let r := dispatch h id p obs w in
        (outcome r, world r,
         Invoked h (ob_id ob) id p :: Console (hook_error_line h e) :: events r)
    | Some ROther =>
        let r := dispatch h id p obs w in
        (outcome r, world r,
         Invoked h (ob_id ob) id p
         :: Console ("[Hook] " +:+ h +:+ " error: undefined") :: events r)
    | None =>
        let r := dispatch h id p obs w in
        (outcome r, world r, Invoked h (ob_id ob) id p :: events r)
    end.
Proof.
  unfold dispatch. cbn [forEach]. generalize (forEach (Ev := Event) (fun ob : Observer =>
    do! emit (Invoked h (ob_id ob) id p) in
    match ob_throws ob id p with
    | Some v => report_hook_error h v
    | None => ret tt
    end) obs). intros k.
  unfold outcome, world, events, hook_error_line.
  destruct (ob_throws ob id p) as [[e| |]|]; cbn [report_hook_error];
    unfold bind, emit, throw, ret; cbn [app]; try reflexivity;
    by destruct (k w) as [[o w'] evs].
Qed.

(** C6 (as the code behaves).  The hook loop calls the callbacks in
    the order of the list and goes on after a callback that throws a
    value whose [message] can be read.  A callback that throws [null] or
    [undefined] makes the [catch] block itself throw: the loop ends there,
    the callbacks after it are not called, and the [TypeError] leaves the
    dispatch. *)
Theorem null_throw_ends_the_dispatch h id p obs w :
  let r := dispatch h id p obs w in
  outcome r = (if existsb (throws_nullish id p) obs
               then Thrown message_of_null
               else Returned tt) /\
  world r = w /\
  invoked (events r) = map (fun ob => (h, ob_id ob)) (reached id p obs).
Proof.
  cbv zeta. induction obs as [|ob obs IH]; [done|].
  rewrite dispatch_cons. cbn [existsb reached]. unfold throws_nullish at 1 3.
  destruct IH as (IHo & IHw & IHi).
  destruct (ob_throws ob id p) as [[e| |]|]; cbv zeta;
    unfold outcome, world, events in *; cbn [fst snd orb map]; try done;
    (split; [exact IHo|]); (split; [exact IHw|]);
    unfold invoked in *; cbn [omap list_omap]; by rewrite IHi.
Qed.

(** C7.  Over every sequence of operations of the program, a task id
    persisted with a terminal status, in memory or in the state file,
    keeps a terminal status there: it is never written back to
    running. *)
Theorem terminal_status_never_reverted file ops1 ops2 store id :
  let w1 := run_ops clock disk_ok tie_up ops1 (boot file) in
  let w2 := run_ops clock disk_ok tie_up ops2 w1 in
  terminal (persisted_status store id w1) = true ->
  terminal (persisted_status store id w2) = true /\
  persisted_status store id w2 <> Some running.
Proof.
  intros w1 w2 H.
  assert (terminal (persisted_status store id w2) = true) as Ht.
  { destruct (run_ops_legal ops2 w1 id) as (Hsafe & _ & Hsettled).
    destruct (run_ops_legal ops1 (boot file) id) as (_ & Hsynced & _).
    specialize (Hsynced (boot_synced file id)).
    destruct store; cbn [persisted_status] in *.
    - by apply Hsafe.
    - apply Hsettled. split; [by apply Hsynced|done]. }
  split; [done|]. intros E. by rewrite E in Ht.
Qed.

(** C9 (as the code behaves).  On a task id without a tracking record
    the guard of [log], [progress], [complete], [fail] and [retry] reads
    [this.tracking[taskId]].  For a name that nothing answers to, each of
    them returns at once: same state, nothing printed, no hook dispatched.
    For a name inherited from [Object.prototype] the guard holds: the
    method runs into [log], which throws a [TypeError] after the clock
    has been read once, or three times in [complete] and [fail].  [start]
    is what creates the record, whatever the name. *)
Theorem untracked_mutators_by_name id w :
  tracking w !! id = None ->
  let untouched : Outcome unit * World * list Event := (Returned tt, w, []) in
  let thrown n : Outcome unit * World * list Event :=
    (Thrown push_of_undefined, set_ticks (n + ticks w) w, []) in
  (forall lvl msg mt,
     log clock id lvl msg mt w = if inherited id then thrown 1 else untouched) /\
  (forall pct msg,
     report_progress clock id pct msg w = if inherited id then thrown 1 else untouched) /\
  (forall r,
     complete clock disk_ok id r w = if inherited id then thrown 3 else untouched) /\
  (forall err,
     fail clock disk_ok id err w = if inherited id then thrown 3 else untouched) /\
  (forall attempt err,
     retry clock id attempt err w = if inherited id then thrown 1 else untouched) /\
  (forall d, is_Some (tracking (world (start clock id d w)) !! id)).
Proof.
  intros H untouched thrown. subst untouched thrown. cbv beta.
  repeat split; intros.
  - by rewrite log_untracked.
  - by rewrite report_progress_untracked.
  - by rewrite complete_untracked.
  - by rewrite fail_untracked.
  - by rewrite retry_untracked.
  - by destruct (start_facts id d w) as (w' & evs & -> & _ & Hid & _).
Qed.

End Runs.

(** *** Instances *)

Lemma fail_hook_fires_on_every_attempt_witness :
  fired_count "onTaskFail" "t1"
    (events (run_job wall_clock disk_fine ties_up createTask_attempts failing_job (boot None)))
  = 3.
Proof.
  apply (fail_hook_fires_on_every_attempt wall_clock disk_fine ties_up
           createTask_attempts failing_job (boot None)).
  - unfold createTask_attempts. lia.
  - vm_compute. eauto.
  - intros a. simpl. discriminate.
Defined.

Lemma terminal_status_never_reverted_witness :
  terminal (persisted_status OnDisk "t4"
    (run_ops wall_clock disk_fine ties_up
       [OStart "t4" VUndefined; OProgress "t4" 10 "again"; OLog "t4" "INFO" "x" MetaNone]
       (run_ops wall_clock disk_fine ties_up [OJob 3 four_step_job] (boot None)))) = true.
Proof.
  apply (terminal_status_never_reverted wall_clock disk_fine ties_up None
           [OJob 3 four_step_job]
           [OStart "t4" VUndefined; OProgress "t4" 10 "again"; OLog "t4" "INFO" "x" MetaNone]
           OnDisk "t4").
  vm_compute. reflexivity.
Defined.

Lemma untracked_mutators_by_name_witness :
  tracking (boot None) !! "toString" = None /\
  complete wall_clock disk_fine "toString" success (boot None)
  = (Thrown push_of_undefined, set_ticks 3 (boot None), []).
Proof.
  split; [reflexivity|].
  apply (untracked_mutators_by_name wall_clock disk_fine "toString" (boot None)).
  reflexivity.
Defined.

(** A name that nothing answers to, by contrast. *)
Example unknown_task_is_ignored :
  complete wall_clock disk_fine "ghost" success (boot None) = (Returned tt, boot None, []).
Proof. reflexivity. Qed.

(** C6, at a failing input: of two callbacks, the first of which throws
    [null], only the first is called, and the dispatch throws. *)
Example null_thrower_blocks_the_next_observer :
  let r := dispatch "onTaskProgress" "t" (PProgress 50 "half")
             [null_thrower; observer_of listener] (boot None) in
  invoked (events r) = [("onTaskProgress", 9)] /\
  outcome r = Thrown message_of_null.
Proof. vm_compute. auto. Qed.

(** A function handed to [createTask] as [execute] is gone when the
    worker runs the job, which then completes. *)
Example closure_never_runs :
  createTask "t1" VUndefined closure_steps
  = mkJob "t1" VUndefined [plain_step "a"; plain_step "b"] /\
  attempts_result 2 1 (createTask "t1" VUndefined closure_steps) = JobCompleted success.
Proof. split; reflexivity. Qed.

(** C4, the claim as stated: a task of 500 steps, none of which fails, is
    told to be at 100 percent when its 499th step is about to start. *)
Lemma progress_reaches_100_before_last_step :
  progress_values
    (events (processor wall_clock disk_fine ties_up 1 (long_job 500) (boot None)))
    !! 498 = Some 100%Z.
Proof. rewrite progress_values_processor. vm_compute. reflexivity. Qed.

(** A progress observer that throws does not keep the next one from
    being called. *)
Example throwing_observer_is_isolated :
  let w := world (registerHook "onTaskProgress" listener
             (world (registerHook "onTaskProgress" thrower (boot None)))) in
  invoked (events (triggerHook "onTaskProgress" "t" (PProgress 50 "half") w))
  = [("onTaskProgress", 1); ("onTaskProgress", 7); ("onTaskProgress", 8)].
Proof. vm_compute. reflexivity. Qed.

End OrchestratorFacts.

(** * Properties of scripts/task-queue-redis.js *)

Module TaskQueueFacts.
Import Js TaskQueue.
Local Open Scope eff_scope.

(** *** Running the file queue *)

Lemma readFileQueue_run w :
  readFileQueue w
  = (Returned (contents w), w,
     match file w with
     | Absent => []
     | Corrupt => [FsRead; Console "[FileQueue] Read error: Unexpected end of JSON input"]
     | Stored _ => [FsRead]
     end).
Proof. unfold readFileQueue, contents, bind, try_catch, get. by destruct (file w). Qed.

Lemma writeFileQueue_run e q w :
  writeFileQueue e q w
  = if write_ok e
    then (Returned tt, set_file (Stored q) w, [FsWrite])
    else (Returned tt, w, [FsWrite; Console "[FileQueue] Write error: EACCES: permission denied"]).
Proof. unfold writeFileQueue, bind, try_catch, emit. by destruct (write_ok e). Qed.

Lemma fileEnqueue_run e task w :
  exists evs,
    fileEnqueue e task w
    = (Returned (build_record e task),
       (if write_ok e then set_file (Stored (contents w ++ [build_record e task])) w else w),
       evs) /\
    In (Console ("[FileQueue] Task enqueued: " +:+ id (build_record e task))) evs /\
    (write_ok e = false ->
     In (Console "[FileQueue] Write error: EACCES: permission denied") evs).
Proof.
  unfold fileEnqueue. unfold bind at 1. rewrite readFileQueue_run.
  unfold bind at 1. rewrite writeFileQueue_run.
  destruct (write_ok e); unfold bind, emit, ret; eexists; (split; [reflexivity|]);
    rewrite !in_app_iff; cbn [In build_record id]; split; auto; discriminate.
Qed.

Lemma fileDequeue_run e w :
  exists evs,
    fileDequeue e w
    = match contents w with
      | [] => (Returned None, w, evs)
      | task :: rest =>
          (Returned (Some task), (if write_ok e then set_file (Stored rest) w else w), evs)
      end.
Proof.
  unfold fileDequeue. unfold bind at 1. rewrite readFileQueue_run.
  destruct (contents w) as [|task rest]; [by eexists|].
  unfold bind at 1. rewrite writeFileQueue_run.
  destruct (write_ok e); unfold bind, emit, ret; by eexists.
Qed.

Lemma enqueue_all_contents calls :
  forall w,
    contents (enqueue_all calls w)
    = contents w
      ++ map (fun c => build_record c.1 c.2) (filter (fun c => write_ok c.1 = true) calls).
Proof.
  induction calls as [|[e t] rest IH]; intros w; cbn [enqueue_all].
  { by rewrite app_nil_r. }
  destruct (fileEnqueue_run e t w) as (evs & -> & _).
  rewrite IH. unfold world. cbn [fst snd].
  destruct (write_ok e) eqn:He.
  - rewrite filter_cons_True by done. cbn [contents file set_file map fst snd].
    by rewrite <- app_assoc.
  - rewrite filter_cons_False by (cbn [fst]; congruence). reflexivity.
Qed.

Lemma dequeue_all_takes envs :
  forall w,
    Forall (fun e => write_ok e = true) envs ->
    (dequeue_all envs w).1
    = take (length envs) (map Some (contents w))
      ++ replicate (length envs - length (contents w)) None /\
    contents (dequeue_all envs w).2 = drop (length envs) (contents w).
Proof.
  induction envs as [|e rest IH]; intros w Hok; cbn [dequeue_all].
  { cbn [fst snd length take drop]. by rewrite Nat.sub_0_l. }
  apply Forall_cons in Hok as [He Hrest].
  destruct (fileDequeue_run e w) as (evs & E). rewrite E.
  destruct (contents w) as [|task q] eqn:Hq.
  - unfold world, returned, outcome. cbn [fst snd mjoin option_join].
    specialize (IH w Hrest). rewrite Hq in IH.
    destruct (dequeue_all rest w) as [rs w']. cbn [fst snd] in *.
    destruct IH as [-> ->]. cbn [map take length drop app].
    rewrite !take_nil, !drop_nil, !Nat.sub_0_r. done.
  - rewrite He. unfold world, returned, outcome. cbn [fst snd mjoin option_join].
    specialize (IH (set_file (Stored q) w) Hrest).
    cbn [contents file set_file] in IH.
    destruct (dequeue_all rest (set_file (Stored q) w)) as [rs w'].
    cbn [fst snd] in *. destruct IH as [-> ->]. done.
Qed.

(** *** Processes that share the queue file *)

Lemma parse_contents w : parse (file w) = contents w.
Proof. reflexivity. Qed.

(** *** The guard of the facade *)

Lemma checkRedis_run e w :
  checkRedis e w
  = (Returned (redis w && ping_ok e), w, if redis w then [Ping] else []).
Proof.
  unfold checkRedis, bind, get, try_catch, emit.
  by destruct (redis w), (ping_ok e).
Qed.

Lemma guarded_run {A} e (attempt : M A) (dflt : A) w :
  guarded e attempt dflt w
  = if redis w && ping_ok e && useRedis w
    then (match outcome (attempt w) with
          | Returned a => Returned (true, a)
          | Thrown err => Thrown err
          end, world (attempt w), [Ping] ++ events (attempt w))
    else (Returned (redis w && ping_ok e, dflt), w, if redis w then [Ping] else []).
Proof.
  unfold guarded. unfold bind at 1. rewrite checkRedis_run. unfold bind at 1, get.
  unfold bind, ret.
  destruct (redis w), (ping_ok e), (useRedis w); cbn [andb]; try reflexivity.
  destruct (attempt w) as [[[a|err] w'] ev]; unfold outcome, world, events; cbn [fst snd];
    by rewrite ?app_nil_r.
Qed.

Lemma keeps_ret {A} P (a : A) : keeps P (ret a).
Proof. intros w. by repeat split. Qed.

Lemma keeps_throw {A} P err : keeps P (throw (A := A) err).
Proof. intros w. by repeat split. Qed.

Lemma keeps_get P : keeps P get.
Proof. intros w. by repeat split. Qed.

Lemma keeps_emit (P : Event -> Prop) ev : P ev -> keeps P (emit ev).
Proof. intros H w. repeat split. by constructor. Qed.

Lemma keeps_modify P f :
  (forall w, redis (f w) = redis w /\ useRedis (f w) = useRedis w) ->
  keeps P (modify f).
Proof. intros H w. destruct (H w). by repeat split. Qed.

Lemma keeps_bind {A B} P (m : M A) (k : A -> M B) :
  keeps P m -> (forall a, keeps P (k a)) -> keeps P (bind m k).
Proof.
  intros Hm Hk w. specialize (Hm w). unfold bind, events, world in *.
  destruct (m w) as [[[a|err] w1] ev1]; cbn [fst snd] in *; [|done].
  specialize (Hk a w1). unfold events, world in Hk.
  destruct (k a w1) as [[r w2] ev2]. cbn [fst snd] in *.
  destruct Hm as (?&?&?), Hk as (?&?&?). rewrite Forall_app. repeat split; [done|done|congruence|congruence].
Qed.

Lemma keeps_try_catch {A} P (m : M A) (h : Error -> M A) :
  keeps P m -> (forall err, keeps P (h err)) -> keeps P (try_catch m h).
Proof.
  intros Hm Hh w. specialize (Hm w). unfold try_catch, events, world in *.
  destruct (m w) as [[[a|err] w1] ev1]; cbn [fst snd] in *; [done|].
  specialize (Hh err w1). unfold events, world in Hh.
  destruct (h err w1) as [[r w2] ev2]. cbn [fst snd] in *.
  destruct Hm as (?&?&?), Hh as (?&?&?). rewrite Forall_app. repeat split; [done|done|congruence|congruence].
Qed.

Create HintDb keeps.
#[local] Hint Resolve keeps_ret keeps_throw keeps_get keeps_bind keeps_try_catch : keeps.
#[local] Hint Extern 1 (keeps _ (emit _)) => apply keeps_emit; by repeat split : keeps.
#[local] Hint Extern 1 (keeps _ (modify _)) => apply keeps_modify; by repeat split : keeps.
#[local] Hint Extern 2 (keeps _ (match ?x with _ => _ end)) => destruct x : keeps.

Lemma keeps_readFileQueue : keeps local readFileQueue.
Proof. unfold readFileQueue. auto 8 with keeps. Qed.

Lemma keeps_writeFileQueue e q : keeps local (writeFileQueue e q).
Proof. unfold writeFileQueue. auto 8 with keeps. Qed.

#[local] Hint Resolve keeps_readFileQueue keeps_writeFileQueue : keeps.

Lemma keeps_fileEnqueue e task : keeps local (fileEnqueue e task).
Proof. unfold fileEnqueue. auto 8 with keeps. Qed.

Lemma keeps_fileDequeue e : keeps local (fileDequeue e).
Proof. unfold fileDequeue. auto 8 with keeps. Qed.

Lemma keeps_filePeek : keeps local filePeek.
Proof. unfold filePeek. auto 8 with keeps. Qed.

#[local] Hint Resolve keeps_fileEnqueue keeps_fileDequeue keeps_filePeek : keeps.

Lemma keeps_broker_call e op : keeps no_ping (broker_call e op).
Proof. unfold broker_call. auto 8 with keeps. Qed.

#[local] Hint Resolve keeps_broker_call : keeps.

Lemma first_broker_call {A B} e op (k : M A) (h : Error -> M B) (k' : A -> M B) w :
  existsb is_broker
    (events (try_catch
               (do! ensure_queue in let! a := (do! broker_call e op in k) in k' a) h w))
  = true.
Proof.
  unfold try_catch, ensure_queue, broker_call. unfold bind at 1, modify.
  unfold bind at 1. unfold bind at 1. unfold bind at 1, emit.
  destruct (broker_ok e).
  - unfold ret at 1. destruct (k (set_queue true w)) as [[[a|err] w1] ev1].
    + destruct (k' a w1) as [[[b|err] w2] ev2].
      * by unfold events.
      * destruct (h err w2) as [[r w3] ev3]. by unfold events.
    + destruct (h err w1) as [[r w2] ev2]. by unfold events.
  - unfold throw at 1. destruct (h _ _) as [[r w2] ev2]. by unfold events.
Qed.

Lemma first_broker_call_last {A} e op (k : M A) (h : Error -> M A) w :
  existsb is_broker
    (events (try_catch (do! ensure_queue in do! broker_call e op in k) h w))
  = true.
Proof.
  unfold try_catch, ensure_queue, broker_call. unfold bind at 1, modify.
  unfold bind at 1. unfold bind at 1, emit.
  destruct (broker_ok e).
  - unfold ret at 1. destruct (k (set_queue true w)) as [[[a|err] w1] ev1].
    + by unfold events.
    + destruct (h err w1) as [[r w2] ev2]. by unfold events.
  - unfold throw at 1. destruct (h _ _) as [[r w2] ev2]. by unfold events.
Qed.

Lemma existsb_Forall_false {A} (f : A -> bool) l :
  Forall (fun x => f x = false) l -> existsb f l = false.
Proof. induction 1 as [|x l Hx _ IH]; [done|]. cbn. by rewrite Hx, IH. Qed.

(** An operation that is the guard followed by file-queue code. *)
Lemma guarded_then {A B} e (attempt : M A) (dflt : A) (cont : bool * A -> M B)
    (m : M B) w :
  (forall w, m w = bind (guarded e attempt dflt) cont w) ->
  attempts_broker attempt ->
  (forall x, keeps local (cont x)) ->
  let r := m w in
  exists rest,
    events r = (if redis w then [Ping] else []) ++ rest /\
    existsb is_ping rest = false /\
    existsb is_broker rest = redis w && ping_ok e && useRedis w /\
    useRedis (world r) = useRedis w /\
    redis (world r) = redis w.
Proof.
  intros Hm [Hatt Hreach] Hcont r. subst r. rewrite Hm. clear Hm.
  unfold bind. rewrite guarded_run.
  pose proof (Hatt w) as (Hp1 & Hr1 & Hu1). specialize (Hreach w).
  destruct (redis w && ping_ok e && useRedis w) eqn:Hc.
  - assert (Hr : redis w = true) by by destruct (redis w).
    rewrite Hr in *.
    destruct (attempt w) as [[[a|err] w1] ev1];
      unfold outcome, world, events in *; cbn [fst snd] in *.
    + pose proof (Hcont (true, a) w1) as (Hl2 & Hr2 & Hu2). unfold world, events in *.
      destruct (cont (true, a) w1) as [[r2 w2] ev2]. cbn [fst snd] in *.
      exists (ev1 ++ ev2). rewrite !existsb_app, Hreach.
      split; [by rewrite <- app_assoc|].
      rewrite !existsb_Forall_false; [repeat split; try reflexivity; congruence|..].
      all: first [exact Hp1 | eapply Forall_impl; [exact Hl2|]; by intros ev [? ?]].
    + exists ev1. rewrite Hreach.
      rewrite existsb_Forall_false by exact Hp1. by repeat split.
  - pose proof (Hcont (redis w && ping_ok e, dflt) w) as (Hl2 & Hr2 & Hu2).
    unfold world, events in *.
    destruct (cont (redis w && ping_ok e, dflt) w) as [[r2 w2] ev2]. cbn [fst snd] in *.
    exists ev2. rewrite !existsb_Forall_false; [by repeat split|..].
    + eapply Forall_impl; [exact Hl2|]. by intros ev [? ?].
    + eapply Forall_impl; [exact Hl2|]. by intros ev [? ?].
Qed.

Lemma bind_assoc {A B C} (m : M A) (k : A -> M B) (k' : B -> M C) w :
  bind (bind m k) k' w = bind m (fun a => bind (k a) k') w.
Proof.
  unfold bind. destruct (m w) as [[[a|err] w1] ev1]; [|reflexivity].
  destruct (k a w1) as [[[b|err] w2] ev2]; [|reflexivity].
  destruct (k' b w2) as [[r w3] ev3]. by rewrite app_assoc.
Qed.

Lemma bind_ext {A B} (m : M A) (k k' : A -> M B) w :
  (forall a w', k a w' = k' a w') -> bind m k w = bind m k' w.
Proof.
  intros H. unfold bind. destruct (m w) as [[[a|err] w1] ev1]; [|reflexivity].
  by rewrite H.
Qed.

Lemma bind_ret_l {A B} (a : A) (k : A -> M B) w : bind (ret a) k w = k a w.
Proof. unfold bind, ret. by destruct (k a w) as [[r w'] ev]. Qed.

Ltac regroup :=
  repeat (repeat first [rewrite bind_ret_l | rewrite bind_assoc];
          first [reflexivity | apply bind_ext; intros ? ?]).

Lemma enqueue_guarded e task w :
  facade (FEnqueue task) e w
  = bind (guarded e (attempt_enqueue e task) None)
      (fun x =>
         let! r := match x.2 with
                   | Some r => ret r
                   | None =>
                       do! emit (Console "[Queue] Using file queue fallback") in
                       fileEnqueue e task
                   end in
         ret (REnqueued r)) w.
Proof. unfold facade, enqueue, guarded, attempt_enqueue. regroup. Qed.

Lemma dequeue_guarded e w :
  facade FDequeue e w
  = bind (guarded e (attempt_dequeue e) None)
      (fun x =>
         let! r := match x.2 with
                   | Some r => ret (Some r)
                   | None =>
                       do! emit (Console "[Queue] Using file queue fallback") in
                       fileDequeue e
                   end in
         ret (RTaken r)) w.
Proof. unfold facade, dequeue, guarded, attempt_dequeue. regroup. Qed.

Lemma peek_guarded e w :
  facade FPeek e w
  = bind (guarded e (attempt_peek e) None)
      (fun x =>
         let! r := match x.2 with
                   | Some r => ret (Some r)
                   | None => filePeek
                   end in
         ret (RTaken r)) w.
Proof. unfold facade, peek, guarded, attempt_peek. regroup. Qed.

Lemma getStats_guarded e w :
  facade FStats e w
  = bind (guarded e (attempt_stats e) 0)
      (fun x =>
         let! s := (let! fileQueue := readFileQueue in
                    ret (mkStats x.1 x.2 (length fileQueue))) in
         ret (RStats s)) w.
Proof. unfold facade, getStats, guarded, attempt_stats. regroup. Qed.

Lemma keeps_queue_add e jname d : keeps no_ping (queue_add e jname d).
Proof. unfold queue_add. auto 8 with keeps. Qed.

Lemma keeps_getWaiting e : keeps no_ping (getWaiting e).
Proof. unfold getWaiting. auto 8 with keeps. Qed.

Lemma keeps_getWaitingCount e : keeps no_ping (getWaitingCount e).
Proof. unfold getWaitingCount. auto 8 with keeps. Qed.

Lemma keeps_job_remove e job : keeps no_ping (job_remove e job).
Proof. unfold job_remove. auto 8 with keeps. Qed.

#[local] Hint Resolve keeps_queue_add keeps_getWaiting keeps_getWaitingCount
  keeps_job_remove : keeps.

Lemma attempt_enqueue_reaches e task : attempts_broker (attempt_enqueue e task).
Proof.
  split; [unfold attempt_enqueue, ensure_queue; auto 10 with keeps|].
  intros w. unfold attempt_enqueue, queue_add. apply first_broker_call.
Qed.

Lemma attempt_dequeue_reaches e : attempts_broker (attempt_dequeue e).
Proof.
  split; [unfold attempt_dequeue, ensure_queue; auto 10 with keeps|].
  intros w. unfold attempt_dequeue, getWaiting. apply first_broker_call.
Qed.

Lemma attempt_peek_reaches e : attempts_broker (attempt_peek e).
Proof.
  split; [unfold attempt_peek, ensure_queue; auto 10 with keeps|].
  intros w. unfold attempt_peek, getWaiting. apply first_broker_call.
Qed.

Lemma attempt_stats_reaches e : attempts_broker (attempt_stats e).
Proof.
  split; [unfold attempt_stats, ensure_queue; auto 10 with keeps|].
  intros w. unfold attempt_stats, getWaitingCount. apply first_broker_call_last.
Qed.

(** ** The claims about the queue *)

(** C1 (amended).  Each operation of the facade calls [checkRedis]
    itself: when a client object exists the call begins with one ping and
    sends no other.  The broker is then reached exactly when that ping
    succeeded and the [useRedis] flag is on, a flag that [initRedis] sets
    and the operations leave as it is; so a failed probe always sends the
    call to the file queue. *)
Theorem facade_probes_on_every_call op e w :
  let r := facade op e w in
  exists rest,
    events r = (if redis w then [Ping] else []) ++ rest /\
    existsb is_ping rest = false /\
    existsb is_broker rest = redis w && ping_ok e && useRedis w /\
    useRedis (world r) = useRedis w /\
    redis (world r) = redis w.
Proof.
  destruct op; cbn [facade].
  - eapply guarded_then; [apply enqueue_guarded|apply attempt_enqueue_reaches|].
    intros [avail [r|]]; cbn [snd]; auto 8 with keeps.
  - eapply guarded_then; [apply dequeue_guarded|apply attempt_dequeue_reaches|].
    intros [avail [r|]]; cbn [snd]; auto 8 with keeps.
  - eapply guarded_then; [apply peek_guarded|apply attempt_peek_reaches|].
    intros [avail [r|]]; cbn [snd]; auto 8 with keeps.
  - eapply guarded_then; [apply getStats_guarded|apply attempt_stats_reaches|].
    intros [avail n]; auto 8 with keeps.
Qed.

(** C1, the claim as stated: after a start-up during which the broker
    could not be reached, a call whose own probe succeeds still goes to
    the file queue, where the same call after a successful start-up goes
    to the broker. *)
Lemma stale_flag_overrides_probe : ~ backend_follows_probe_alone.
Proof.
  intros H.
  specialize (H (FEnqueue task_a) live
                (world (init true (loaded Absent)))
                (world (init false (loaded Absent))) eq_refl).
  vm_compute in H. discriminate.
Qed.

(** C5 (amended).  On the file backend [fileEnqueue] appends its
    record at the tail of the stored sequence when its write succeeds, and
    stores nothing when it fails; [fileDequeue], with writes that succeed,
    removes and returns the head.  After any sequence of enqueues the file
    holds what it held before and then the records whose write succeeded,
    in the order of their enqueues; dequeuing returns them in that order,
    and [null] once the queue is empty. *)
Theorem file_queue_is_fifo calls envs w :
  Forall (fun e => write_ok e = true) envs ->
  let w1 := enqueue_all calls w in
  let stored :=
    contents w
    ++ map (fun c => build_record c.1 c.2) (filter (fun c => write_ok c.1 = true) calls) in
  contents w1 = stored /\
  (dequeue_all envs w1).1
  = take (length envs) (map Some stored) ++ replicate (length envs - length stored) None /\
  contents (dequeue_all envs w1).2 = drop (length envs) stored.
Proof.
  intros Henvs w1 stored.
  assert (H1 : contents w1 = stored) by apply enqueue_all_contents.
  split; [exact H1|]. rewrite <- H1. by apply dequeue_all_takes.
Qed.

(** C5, the claim as stated: an enqueue whose write fails returns its
    record like any other, but the record is not stored; the next
    dequeue returns the record of a later enqueue. *)
Lemma failed_write_loses_a_record : ~ fifo_for_every_sequence.
Proof.
  intros H.
  specialize (H [(disk_full, task_a); (live, task_b)] [live; later] eq_refl).
  vm_compute in H. discriminate.
Qed.

(** C8 (amended).  A mutating call of the file queue is a read of the
    whole file followed by a write of the whole file, with no lock
    around them; when its two steps run with no step of another process
    in between, it has the effect and the result of the sequential
    function. *)
Theorem call_alone_is_atomic c w :
  run_schedule [0; 0] (file w, [Pending c])
  = Some ((run_call c w).2, [Finished (run_call c w).1]).
Proof.
  destruct c as [e task|e]; cbn [run_schedule sys_step proc_step fst snd lookup
    list_lookup insert list_insert run_call]; rewrite parse_contents.
  - destruct (fileEnqueue_run e task w) as (evs & -> & _).
    unfold write, returned, world, outcome. cbn [fst snd].
    by destruct (write_ok e).
  - destruct (fileDequeue_run e w) as (evs & ->).
    destruct (contents w) as [|task rest]; [reflexivity|].
    cbn [proc_step]. unfold write, returned, world, outcome. cbn [fst snd].
    by destruct (write_ok e).
Qed.

(** C8, the claim as stated: two processes that enqueue at the same time
    can both be between their read and their write. *)
Lemma two_mutators_at_once : ~ one_mutator_at_a_time.
Proof.
  intros H.
  specialize (H [0; 1] (Stored [])
                [Pending (CallEnqueue live task_a); Pending (CallEnqueue later task_b)]
                _ ltac:(repeat constructor) eq_refl).
  vm_compute in H. lia.
Qed.

(** With the broker down from the start, a record goes to the file queue
    and comes back from it, marked as such. *)
Example broker_down_uses_file_queue :
  let w0 := world (init false (loaded Absent)) in
  let w1 := world (enqueue broker_down task_a w0) in
  returned (dequeue broker_down w1) = Some (Some (build_record broker_down task_a)) /\
  source (build_record broker_down task_a) = file_src /\
  contents (world (dequeue broker_down w1)) = [].
Proof. vm_compute. auto. Qed.

(** What that interleaving costs: both calls return their record, and
    the file keeps only the second. *)
Example interleaved_enqueues_lose_a_record :
  run_schedule [0; 1; 0; 1]
    (Stored [], [Pending (CallEnqueue live task_a); Pending (CallEnqueue later task_b)])
  = Some (Stored [build_record later task_b],
          [Finished (Some (build_record live task_a));
           Finished (Some (build_record later task_b))]).
Proof. reflexivity. Qed.

(** C10 (amended).  When the write of the queue file fails,
    [fileEnqueue] logs the error and goes on: it returns the record it
    built, and the state, the file included, is what it was.  The id of
    that record is the generated one, [file-], the time, [-] and the
    random suffix, unless the task carries an id of its own, which then
    takes its place. *)
Theorem failed_write_is_swallowed e task w :
  write_ok e = false ->
  let r := fileEnqueue e task w in
  let generated := "file-" +:+ pretty (now e) +:+ "-" +:+ rnd e in
  let record :=
    mkRecord (default generated (task_id task)) (name task) (data task) (iso_now e)
      file_src in
  outcome r = Returned record /\
  world r = w /\
  In (Console "[FileQueue] Write error: EACCES: permission denied") (events r) /\
  In (Console ("[FileQueue] Task enqueued: " +:+ id record)) (events r).
Proof.
  intros Hw r generated record. unfold r.
  destruct (fileEnqueue_run e task w) as (evs & -> & Hdone & Herr).
  rewrite Hw. unfold outcome, world, events. cbn [fst snd]. repeat split; auto.
Qed.

(** C10, the claim as stated: a record that is handed in again keeps
    the id it came with. *)
Lemma own_id_replaces_the_generated_id : ~ returns_the_generated_id.
Proof.
  intros H.
  specialize (H disk_full requeued (loaded (Stored [])) eq_refl).
  vm_compute in H. discriminate.
Qed.

(** *** Instances *)

Lemma file_queue_is_fifo_witness :
  (dequeue_all [live; later; live]
     (enqueue_all [(live, task_a); (disk_full, task_a); (later, task_b)] (loaded Absent))).1
  = [Some (build_record live task_a); Some (build_record later task_b); None].
Proof.
  apply (file_queue_is_fifo [(live, task_a); (disk_full, task_a); (later, task_b)]
           [live; later; live] (loaded Absent)).
  repeat constructor.
Defined.

Lemma failed_write_is_swallowed_witness :
  write_ok disk_full = false /\
  world (fileEnqueue disk_full task_a (loaded (Stored [])))
  = loaded (Stored []).
Proof.
  split; [reflexivity|].
  apply (failed_write_is_swallowed disk_full task_a (loaded (Stored []))).
  reflexivity.
Defined.

(** The id generated at that call. *)
Example generated_id_at_disk_full :
  id <$> returned (fileEnqueue disk_full task_a (loaded (Stored [])))
  = Some "file-1700000002000-z9y8x7w6v".
Proof. vm_compute. reflexivity. Qed.

End TaskQueueFacts.

(** * Further properties of task-orchestrator.js *)

Module OrchestratorExtras.
Import Js Orchestrator OrchestratorFacts.
Local Open Scope eff_scope.

Section Runs.
Variable clock : nat -> Z.
Variable disk_ok : nat -> bool.
Variable tie_up : nat -> nat -> bool.

Ltac fields :=
  cbn [tracking set_state set_tracking set_ticks set_saves set_state_file set_hooks
       hooks state ticks saves state_file].

Ltac at_id H :=
  fields; rewrite ?lookup_alter_eq, ?lookup_insert_eq, ?H;
  cbn [fmap option_fmap option_map].

(** *** The state manager *)


(** *** What [complete], [fail] and [start] leave behind *)





(** X17.  [start] replaces whatever record the task id had: the new
    record is running, at 0 percent, with the start entry as its only log
    line and no result, error or retry count, so that the log of an
    earlier attempt is gone once the next attempt starts. *)
Theorem start_resets_the_record id d w :
  tracking (world (start clock id d w)) !! id
  = Some (mkTracked id d (clock (ticks w)) 0
            [mkLog (clock (S (ticks w))) "TASK_START" "任务开始" MetaNone]
            running None None None None None None).
Proof.
  unfold start, bind at 1, date_now at 1, bind at 1, modify at 1.
  unfold bind at 1. rewrite log_run. at_id I. rewrite triggerHook_run by reflexivity.
  unfold world. cbn [fst snd]. at_id I. reflexivity.
Qed.

(** *** What every operation keeps *)

Lemma run_op_step o w :
  (exists event cb, o = ORegister event cb) \/
  tracker_step w (world (run_op clock disk_ok tie_up o w)).
Proof.
  destruct o; cbn [run_op]; [right..|left; eauto|right].
  - destruct (start_facts clock id d w) as (w' & evs & -> & T & _). apply T.
  - destruct (log_facts clock id lvl msg mt w) as (o & w' & evs & -> & T & _). apply T.
  - destruct (report_progress_facts clock id pct msg w) as (o & w' & evs & -> & T & _). apply T.
  - destruct (complete_facts clock disk_ok id r w) as (o & w' & evs & -> & T & _). apply T.
  - destruct (fail_facts clock disk_ok id err w) as (o & w' & evs & -> & T & _). apply T.
  - destruct (retry_facts clock id attempt err w) as (o & w' & evs & -> & T & _). apply T.
  - unfold bind at 1, run_job.
    destruct (run_attempts_facts clock disk_ok tie_up job (attempts - 1) 1 w)
      as (r & w' & evs & -> & T & _).
    apply T.
Qed.

Lemma run_op_tracked o w id :
  is_Some (tracking w !! id) ->
  is_Some (tracking (world (run_op clock disk_ok tie_up o w)) !! id).
Proof.
  destruct (run_op_step o w) as [(event & cb & ->)|T]; [|apply T].
  cbn [run_op]. rewrite registerHook_run. by destruct (hooks w !! event).
Qed.

Lemma run_op_hooks o w e l :
  hooks w !! e = Some l ->
  exists l', hooks (world (run_op clock disk_ok tie_up o w)) !! e = Some (l ++ l').
Proof.
  intros H. destruct (run_op_step o w) as [(event & cb & ->)|T].
  - cbn [run_op]. rewrite registerHook_run.
    destruct (hooks w !! event) as [cbs|] eqn:Hev; unfold world; cbn [fst snd hooks set_hooks].
    + destruct (decide (event = e)) as [->|Hne].
      * rewrite lookup_insert_eq. exists [cb]. congruence.
      * rewrite lookup_insert_ne by done. exists []. by rewrite app_nil_r.
    + exists []. by rewrite app_nil_r.
  - destruct T as [Hh _ _]. rewrite Hh. exists []. by rewrite app_nil_r.
Qed.

Lemma run_op_keys o w e :
  is_Some (hooks (world (run_op clock disk_ok tie_up o w)) !! e) <-> is_Some (hooks w !! e).
Proof.
  destruct (run_op_step o w) as [(event & cb & ->)|T].
  - cbn [run_op]. rewrite registerHook_run.
    destruct (hooks w !! event) as [cbs|] eqn:Hev; unfold world; cbn [fst snd hooks set_hooks];
      [|done].
    rewrite lookup_insert_is_Some'. split; [|by right].
    intros [<-|?]; [by rewrite Hev|done].
  - destruct T as [Hh _ _]. by rewrite Hh.
Qed.

Lemma boot_hooks file :
  hooks (boot file)
  = <["onTaskRetry" := [quiet 4]]> (<["onTaskFail" := [quiet 3]]>
      (<["onTaskComplete" := [quiet 2]]> (<["onTaskProgress" := [quiet 1]]>
        (<["onTaskStart" := [quiet 0]]> empty_hooks)))).
Proof. vm_compute. reflexivity. Qed.

(** X18.  The registry has the five event names as its keys when the
    module is loaded and keeps exactly those for good: registering under
    any other name changes nothing, so names such as [start] or
    [progress] are silently ignored. *)
Theorem registry_keys_are_fixed file ops e :
  is_Some (hooks (run_ops clock disk_ok tie_up ops (boot file)) !! e) <-> e ∈ hook_names.
Proof.
  assert (Hboot : is_Some (hooks (boot file) !! e) <-> e ∈ hook_names).
  { change (hooks (boot file)) with (hooks (boot None)). unfold hook_names.
    rewrite !elem_of_cons, elem_of_nil. split.
    - intros [l Hl].
      destruct (decide (e = "onTaskStart")); [tauto|].
      destruct (decide (e = "onTaskProgress")); [tauto|].
      destruct (decide (e = "onTaskComplete")); [tauto|].
      destruct (decide (e = "onTaskFail")); [tauto|].
      destruct (decide (e = "onTaskRetry")); [tauto|].
      exfalso. revert Hl. rewrite boot_hooks. unfold empty_hooks.
      rewrite !lookup_insert_ne by done. by rewrite lookup_empty.
    - intros [->|[->|[->|[->|[->|[]]]]]]; by eexists. }
  generalize dependent (boot file). clear file.
  induction ops as [|o rest IH]; intros w Hw; cbn [run_ops]; [done|].
  apply IH. by rewrite run_op_keys.
Qed.

(** X19.  The list of callbacks of an event only grows, at its tail:
    whatever operations run, the callbacks registered so far stay in
    front, in their order, so the observers registered first are always
    called first. *)
Theorem registry_is_append_only ops w e l :
  hooks w !! e = Some l ->
  exists l', hooks (run_ops clock disk_ok tie_up ops w) !! e = Some (l ++ l').
Proof.
  revert w l. induction ops as [|o rest IH]; intros w l H; cbn [run_ops].
  { exists []. by rewrite app_nil_r. }
  destruct (run_op_hooks o w e l H) as (l1 & H1).
  destruct (IH _ _ H1) as (l2 & H2). exists (l1 ++ l2). by rewrite app_assoc.
Qed.

(** X20.  The tracker never drops a record: once a task id is tracked
    it stays tracked through every later operation, and [getTaskStatus]
    therefore keeps answering from the runtime record, never from the
    persisted snapshot or the broker. *)
Theorem tracked_tasks_are_never_evicted ops w id at_broker :
  is_Some (tracking w !! id) ->
  exists t, getTaskStatus id at_broker (run_ops clock disk_ok tie_up ops w) = FromTracker t.
Proof.
  revert w. induction ops as [|o rest IH]; intros w H; cbn [run_ops].
  - destruct H as [t H]. exists t. unfold getTaskStatus, tracker_get. by rewrite H.
  - apply IH. by apply run_op_tracked.
Qed.

(** *** How a job ends *)







(** *** One run of the worker callback *)





(** X25.  When the number of steps divides 100 times the index, the
    reported percentage is the exact quotient, whatever the rounding of
    ties: a task of 1, 2, 4, 5, 10, 20, 25, 50 or 100 steps reports exact
    percentages at every step. *)
Theorem percent_is_exact_on_divisors i n :
  0 < n ->
  ((100 * Z.of_nat i) mod Z.of_nat n = 0)%Z ->
  percent tie_up i n = (100 * Z.of_nat i / Z.of_nat n)%Z.
Proof.
  intros Hn Hdiv. unfold percent. cbv zeta.
  pose proof (Z.div_mod (100 * Z.of_nat i) (Z.of_nat n)) as Hk.
  rewrite Hdiv, Z.add_0_r in Hk.
  set (k := (100 * Z.of_nat i / Z.of_nat n)%Z) in *.
  assert (Hq : (200 * Z.of_nat i + Z.of_nat n = 2 * Z.of_nat n * k + Z.of_nat n)%Z) by lia.
  rewrite Hq.
  assert (Hmod : ((2 * Z.of_nat n * k + Z.of_nat n) mod (2 * Z.of_nat n) = Z.of_nat n)%Z).
  { symmetry. apply (Z.mod_unique_pos _ _ k); lia. }
  assert (Hquo : ((2 * Z.of_nat n * k + Z.of_nat n) / (2 * Z.of_nat n) = k)%Z).
  { symmetry. apply (Z.div_unique_pos _ _ k (Z.of_nat n)); lia. }
  rewrite Hmod, Hquo.
  destruct (Z.eqb_spec (Z.of_nat n) 0); [lia|done].
Qed.

End Runs.

(** *** Instances *)



Lemma registry_is_append_only_witness :
  exists l',
    hooks (run_ops wall_clock disk_fine ties_up
             [ORegister "onTaskProgress" thrower; OJob 3 four_step_job;
              ORegister "onTaskProgress" listener] (boot None)) !! "onTaskProgress"
    = Some ([quiet 1] ++ l').
Proof.
  apply (registry_is_append_only wall_clock disk_fine ties_up
           [ORegister "onTaskProgress" thrower; OJob 3 four_step_job;
            ORegister "onTaskProgress" listener] (boot None)).
  vm_compute. reflexivity.
Defined.

Lemma tracked_tasks_are_never_evicted_witness :
  exists t,
    getTaskStatus "t4" None
      (run_ops wall_clock disk_fine ties_up
         [OComplete "t4" success; OFail "t4" "late"]
         (world (start wall_clock "t4" VUndefined (boot None))))
    = FromTracker t.
Proof.
  apply (tracked_tasks_are_never_evicted wall_clock disk_fine ties_up
           [OComplete "t4" success; OFail "t4" "late"]
           (world (start wall_clock "t4" VUndefined (boot None))) "t4" None).
  vm_compute. eauto.
Defined.




Lemma percent_is_exact_on_divisors_witness : percent ties_up 3 4 = 75%Z.
Proof.
  apply (percent_is_exact_on_divisors ties_up 3 4); [lia|reflexivity].
Defined.

End OrchestratorExtras.

(** * Further properties of scripts/task-queue-redis.js *)

Module TaskQueueExtras.
Import Js TaskQueue TaskQueueFacts.
Local Open Scope eff_scope.

(** *** How [enqueue] is served *)

Lemma enqueue_unserved e task w :
  redis w && ping_ok e && useRedis w = false ->
  exists evs,
    enqueue e task w
    = (outcome (fileEnqueue e task w), world (fileEnqueue e task w), evs).
Proof.
  intros Hc. unfold enqueue. unfold bind at 1. rewrite checkRedis_run.
  unfold bind at 1, get. rewrite Hc. unfold bind at 1, ret at 1.
  unfold bind at 1, emit at 1.
  destruct (fileEnqueue e task w) as [[r w'] evs]. by eexists.
Qed.

Lemma attempt_enqueue_run e task w :
  exists evs,
    attempt_enqueue e task w
    = if broker_ok e
      then (Returned (Some (mkRecord (default (pretty (S (issued w))) (task_id task))
                              (name task) (data task) (iso_now e) redis_src)),
            set_broker
              (waiting w ++ [mkBrokerJob (pretty (S (issued w))) (job_name_of task)
                               (mkJobData (task_id task) (name task) (data task)
                                  (iso_now e) redis_src)])
              (S (issued w)) (set_queue true w),
            evs)
      else (Returned None, set_queue true w, evs).
Proof.
  unfold attempt_enqueue, try_catch, queue_add, broker_call, ensure_queue.
  unfold bind, modify, emit, get, ret, throw.
  destruct (broker_ok e); by eexists.
Qed.

Lemma enqueue_attempted e task w :
  redis w && ping_ok e && useRedis w = true ->
  exists evs,
    enqueue e task w
    = match attempt_enqueue e task w with
      | (Returned (Some r), w1, _) => (Returned r, w1, evs)
      | (Returned None, w1, _) =>
          (outcome (fileEnqueue e task w1), world (fileEnqueue e task w1), evs)
      | (Thrown err, w1, _) => (Thrown err, w1, evs)
      end.
Proof.
  intros Hc. unfold enqueue. unfold bind at 1. rewrite checkRedis_run.
  unfold bind at 1, get. rewrite Hc. unfold bind at 1.
  destruct (attempt_enqueue e task w) as [[[[r|]|err] w1] ev1].
  - unfold ret. by eexists.
  - unfold bind at 1, emit at 1.
    destruct (fileEnqueue e task w1) as [[r w'] evs]. by eexists.
  - by eexists.
Qed.

(** X2.  When the broker does not serve the call (no client, failed
    ping, flag off, or a broker error after a successful ping), [enqueue]
    returns the record built for the file queue, marked [file], and the
    file holds it at the tail if the write succeeds; the broker's list is
    untouched. *)
Theorem enqueue_falls_back_to_file e task w :
  broker_serves e w = false ->
  let r := enqueue e task w in
  returned r = Some (build_record e task) /\
  source (build_record e task) = file_src /\
  file (world r) = write e (contents w ++ [build_record e task]) (file w) /\
  waiting (world r) = waiting w /\
  issued (world r) = issued w.
Proof.
  intros Hs r. subst r. unfold broker_serves in Hs.
  destruct (redis w && ping_ok e && useRedis w) eqn:Hc.
  - rewrite andb_true_l in Hs.
    destruct (enqueue_attempted e task w Hc) as (evs & ->).
    destruct (attempt_enqueue_run e task w) as (ev1 & ->). rewrite Hs.
    destruct (fileEnqueue_run e task (set_queue true w)) as (ev2 & -> & _).
    unfold returned, outcome, world, write. cbn [fst snd].
    by destruct (write_ok e).
  - destruct (enqueue_unserved e task w Hc) as (evs & ->).
    destruct (fileEnqueue_run e task w) as (ev2 & -> & _).
    unfold returned, outcome, world, write. cbn [fst snd].
    by destruct (write_ok e).
Qed.

(** The broker branch of [enqueue]. *)
Lemma enqueue_via_broker e task w :
  broker_serves e w = true ->
  let r := enqueue e task w in
  let jd := mkJobData (task_id task) (name task) (data task) (iso_now e) redis_src in
  returned r = Some (with_id (pretty (S (issued w))) jd) /\
  waiting (world r)
  = waiting w ++ [mkBrokerJob (pretty (S (issued w))) (job_name_of task) jd] /\
  issued (world r) = S (issued w) /\
  file (world r) = file w.
Proof.
  intros Hs r jd. subst r jd. unfold broker_serves in Hs.
  apply andb_true_iff in Hs as [Hc Hb].
  destruct (enqueue_attempted e task w Hc) as (evs & ->).
  destruct (attempt_enqueue_run e task w) as (ev1 & ->). rewrite Hb.
  by unfold returned, outcome, world.
Qed.

(** X3.  When the broker serves the call, [enqueue] returns a record
    marked [redis]; its id is the one the broker assigned to the job,
    unless the task carries an id of its own, which then takes its place
    in the record while the job keeps the broker's.  The job joins the
    tail of the broker's waiting list, its data being the task with
    [queuedAt] and [source], and the queue file is neither read nor
    written. *)
Theorem enqueue_served_by_broker e task w :
  broker_serves e w = true ->
  let r := enqueue e task w in
  let assigned := pretty (S (issued w)) in
  returned r
  = Some (mkRecord (default assigned (task_id task)) (name task) (data task) (iso_now e)
            redis_src) /\
  waiting (world r)
  = waiting w
    ++ [mkBrokerJob assigned (job_name_of task)
          (mkJobData (task_id task) (name task) (data task) (iso_now e) redis_src)] /\
  issued (world r) = S (issued w) /\
  file (world r) = file w.
Proof.
  exact (enqueue_via_broker e task w).
Qed.

Lemma enqueue_falls_back_to_file_witness :
  returned (enqueue broker_down task_a (loaded Absent))
  = Some (build_record broker_down task_a).
Proof.
  apply (enqueue_falls_back_to_file broker_down task_a (loaded Absent)).
  reflexivity.
Defined.

Lemma enqueue_served_by_broker_witness :
  returned (enqueue live requeued (world (init true (loaded Absent))))
  = Some (mkRecord "file-1699999999000-q1w2e3r4t" (Some "a") (VStr "first")
            "2023-11-14T22:13:20.000Z" redis_src).
Proof.
  apply (enqueue_served_by_broker live requeued (world (init true (loaded Absent)))).
  reflexivity.
Defined.

(** *** How [dequeue] and [peek] are served *)

Lemma attempt_dequeue_run e w :
  exists evs,
    attempt_dequeue e w
    = match (if broker_ok e then waiting w else []) with
      | job :: _ =>
          (Returned (Some (with_id (job_id job) (job_data job))),
           set_broker (filter (fun j => job_id j <> job_id job) (waiting w)) (issued w)
             (set_queue true w),
           evs)
      | [] => (Returned None, set_queue true w, evs)
      end.
Proof.
  unfold attempt_dequeue, try_catch, getWaiting, job_remove, broker_call, ensure_queue.
  unfold bind at 1, modify at 1. unfold bind at 1. unfold bind at 1. unfold bind at 1.
  unfold emit at 1. destruct (broker_ok e) eqn:Hb.
  - unfold ret at 1. unfold bind at 1, get at 1. unfold ret at 1.
    cbn [waiting set_queue]. destruct (waiting w) as [|job rest] eqn:Hw.
    + unfold ret. by eexists.
    + unfold bind, emit, get, modify, ret.
      cbn [waiting set_queue issued]. rewrite Hw. by eexists.
  - unfold throw at 1. unfold bind, emit, ret. by eexists.
Qed.

Lemma dequeue_unserved e w :
  redis w && ping_ok e && useRedis w = false ->
  exists evs,
    dequeue e w = (outcome (fileDequeue e w), world (fileDequeue e w), evs).
Proof.
  intros Hc. unfold dequeue. unfold bind at 1. rewrite checkRedis_run.
  unfold bind at 1, get. rewrite Hc. unfold bind at 1, ret at 1.
  unfold bind at 1, emit at 1.
  destruct (fileDequeue e w) as [[r w'] evs]. by eexists.
Qed.

Lemma dequeue_attempted e w :
  redis w && ping_ok e && useRedis w = true ->
  exists evs,
    dequeue e w
    = match attempt_dequeue e w with
      | (Returned (Some r), w1, _) => (Returned (Some r), w1, evs)
      | (Returned None, w1, _) =>
          (outcome (fileDequeue e w1), world (fileDequeue e w1), evs)
      | (Thrown err, w1, _) => (Thrown err, w1, evs)
      end.
Proof.
  intros Hc. unfold dequeue. unfold bind at 1. rewrite checkRedis_run.
  unfold bind at 1, get. rewrite Hc. unfold bind at 1.
  destruct (attempt_dequeue e w) as [[[[r|]|err] w1] ev1].
  - unfold ret. by eexists.
  - unfold bind at 1, emit at 1.
    destruct (fileDequeue e w1) as [[r w'] evs]. by eexists.
  - by eexists.
Qed.

Lemma fileDequeue_effect e w :
  mjoin (returned (fileDequeue e w)) = head (contents w) /\
  file (world (fileDequeue e w))
  = match contents w with
    | [] => file w
    | _ :: rest => write e rest (file w)
    end /\
  waiting (world (fileDequeue e w)) = waiting w /\
  issued (world (fileDequeue e w)) = issued w.
Proof.
  destruct (fileDequeue_run e w) as (evs & ->).
  destruct (contents w) as [|task rest]; unfold returned, outcome, world, write;
    cbn [fst snd mjoin option_join head]; [done|].
  by destruct (write_ok e).
Qed.

(** X4.  When the broker does not serve the call, or serves it but has
    nothing waiting, [dequeue] turns to the file queue: it returns the head
    of the file, removes it there if the write succeeds, and leaves the
    broker's list as it is.  Records of the two backends are thus not
    merged into one order: a file record can be handed out while the
    broker is up, as soon as the broker is empty. *)
Theorem dequeue_falls_back_to_file e w :
  broker_serves e w = false \/ waiting w = [] ->
  let r := dequeue e w in
  mjoin (returned r) = head (contents w) /\
  file (world r)
  = match contents w with
    | [] => file w
    | _ :: rest => write e rest (file w)
    end /\
  waiting (world r) = waiting w.
Proof.
  intros Hs r. subst r. unfold broker_serves in Hs.
  destruct (redis w && ping_ok e && useRedis w) eqn:Hc.
  - destruct (dequeue_attempted e w Hc) as (evs & ->).
    destruct (attempt_dequeue_run e w) as (ev1 & ->).
    assert ((if broker_ok e then waiting w else []) = []) as ->.
    { destruct Hs as [Hs| ->]; [|by destruct (broker_ok e)].
      rewrite andb_true_l in Hs. by rewrite Hs. }
    destruct (fileDequeue_effect e (set_queue true w)) as (H1 & H2 & H3 & _).
    unfold returned, outcome, world in *.
    destruct (fileDequeue e (set_queue true w)) as [[r w'] ev2]. cbn [fst snd] in *.
    by rewrite H1, H2, H3.
  - destruct (dequeue_unserved e w Hc) as (evs & ->).
    destruct (fileDequeue_effect e w) as (H1 & H2 & H3 & _).
    unfold returned, outcome, world in *.
    destruct (fileDequeue e w) as [[r w'] ev2]. cbn [fst snd] in *. auto.
Qed.

(** The broker branch of [dequeue]. *)
Lemma dequeue_via_broker e w job rest :
  broker_serves e w = true ->
  waiting w = job :: rest ->
  let r := dequeue e w in
  returned r = Some (Some (with_id (job_id job) (job_data job))) /\
  waiting (world r) = filter (fun j => job_id j <> job_id job) rest /\
  file (world r) = file w.
Proof.
  intros Hs Hw r. subst r. unfold broker_serves in Hs.
  apply andb_true_iff in Hs as [Hc Hb].
  destruct (dequeue_attempted e w Hc) as (evs & ->).
  destruct (attempt_dequeue_run e w) as (ev1 & ->). rewrite Hb, Hw.
  unfold returned, outcome, world. cbn [fst snd waiting set_broker file set_queue].
  rewrite filter_cons_False by (cbn; tauto). done.
Qed.

(** X5.  When the broker serves the call and has a job waiting, [dequeue]
    returns the data of the first waiting job as a record; the id of the
    record is the id of the job, unless the data holds an id of its own,
    which then takes its place.  Every job of that job id is removed from
    the broker's list, and the queue file is not touched. *)
Theorem dequeue_served_by_broker e w job rest :
  broker_serves e w = true ->
  waiting w = job :: rest ->
  let r := dequeue e w in
  let d := job_data job in
  returned r
  = Some (Some (mkRecord (default (job_id job) (jd_id d)) (jd_name d) (jd_data d)
                  (jd_queuedAt d) (jd_source d))) /\
  waiting (world r) = filter (fun j => job_id j <> job_id job) rest /\
  file (world r) = file w.
Proof.
  exact (dequeue_via_broker e w job rest).
Qed.

(** X6.  Through the broker, what is enqueued comes back: from an empty
    waiting list, an [enqueue] that the broker serves followed by a
    [dequeue] that it serves returns the very record that [enqueue]
    returned, and the list is empty again. *)
Theorem broker_round_trip e1 e2 task w :
  broker_serves e1 w = true ->
  ping_ok e2 = true -> broker_ok e2 = true ->
  waiting w = [] ->
  let r1 := enqueue e1 task w in
  let r2 := dequeue e2 (world r1) in
  mjoin (returned r2) = returned r1 /\ waiting (world r2) = [].
Proof.
  intros Hs Hp Hb Hw r1 r2.
  assert (Hs2 : broker_serves e2 (world r1) = true).
  { unfold broker_serves in *. apply andb_true_iff in Hs as [Hc _].
    destruct (enqueue_attempted e1 task w Hc) as (evs & E).
    destruct (attempt_enqueue_run e1 task w) as (ev1 & E1). rewrite E1 in E.
    subst r1. rewrite E. rewrite Hp, Hb.
    apply andb_true_iff in Hc as [Hc Hu]. apply andb_true_iff in Hc as [Hr _].
    destruct (broker_ok e1); unfold world; cbn [fst snd redis useRedis set_broker set_queue].
    - by rewrite Hr, Hu.
    - destruct (fileEnqueue_run e1 task (set_queue true w)) as (ev2 & -> & _).
      cbn [fst snd]. destruct (write_ok e1); cbn [redis useRedis set_file set_queue];
        by rewrite Hr, Hu. }
  destruct (enqueue_via_broker e1 task w Hs) as (R1 & W1 & _).
  fold r1 in R1, W1. rewrite Hw in W1. cbn [app] in W1.
  destruct (dequeue_via_broker e2 (world r1) _ [] Hs2 W1) as (R2 & W2 & _).
  fold r2 in R2, W2. rewrite R2, R1, W2. done.
Qed.

Lemma dequeue_falls_back_to_file_witness :
  mjoin (returned (dequeue live (world (init true (loaded (Stored [build_record later task_b]))))))
  = Some (build_record later task_b).
Proof.
  apply (dequeue_falls_back_to_file live
           (world (init true (loaded (Stored [build_record later task_b]))))).
  right. reflexivity.
Defined.

Lemma dequeue_served_by_broker_witness :
  id <$> mjoin (returned (dequeue later
                  (world (enqueue live requeued (world (init true (loaded Absent)))))))
  = Some "file-1699999999000-q1w2e3r4t".
Proof.
  erewrite (proj1 (dequeue_served_by_broker later
                     (world (enqueue live requeued (world (init true (loaded Absent)))))
                     _ [] eq_refl eq_refl)).
  reflexivity.
Defined.

Lemma broker_round_trip_witness :
  waiting (world (dequeue later (world (enqueue live task_a (world (init true (loaded Absent)))))))
  = [].
Proof.
  apply (broker_round_trip live later task_a (world (init true (loaded Absent))));
    reflexivity.
Defined.

Lemma attempt_peek_run e w :
  exists evs,
    attempt_peek e w
    = (Returned (if broker_ok e
                 then (fun job => with_id (job_id job) (job_data job)) <$> head (waiting w)
                 else None),
       set_queue true w, evs).
Proof.
  unfold attempt_peek, try_catch, getWaiting, broker_call, ensure_queue.
  unfold bind, modify, emit, get, ret, throw.
  destruct (broker_ok e); cbn [waiting set_queue]; [|by eexists].
  destruct (waiting w); by eexists.
Qed.

Lemma filePeek_run w :
  exists evs, filePeek w = (Returned (head (contents w)), w, evs).
Proof.
  unfold filePeek, bind. rewrite readFileQueue_run. unfold ret. by eexists.
Qed.

Lemma peek_run e w :
  exists evs,
    peek e w
    = (Returned (match (if broker_serves e w then head (waiting w) else None) with
                 | Some job => Some (with_id (job_id job) (job_data job))
                 | None => head (contents w)
                 end),
       (if redis w && ping_ok e && useRedis w then set_queue true w else w),
       evs).
Proof.
  unfold peek, broker_serves.
  unfold bind at 1. rewrite checkRedis_run. unfold bind at 1, get.
  destruct (redis w && ping_ok e && useRedis w) eqn:Hc; cbn [andb].
  - unfold bind at 1. destruct (attempt_peek_run e w) as (ev1 & ->).
    destruct (broker_ok e); [destruct (head (waiting w)) as [job|]|];
      cbn [fmap option_fmap option_map].
    + unfold ret. by eexists.
    + destruct (filePeek_run (set_queue true w)) as (ev2 & ->). by eexists.
    + destruct (filePeek_run (set_queue true w)) as (ev2 & ->). by eexists.
  - unfold bind at 1, ret at 1. destruct (filePeek_run w) as (ev2 & ->). by eexists.
Qed.

(** X7.  [peek] is non-destructive on both backends: it returns the first
    job waiting at the broker when the broker serves the call and has
    one, the head of the queue file otherwise, and leaves the file, the
    broker's list and its id counter as they were. *)
Theorem peek_does_not_consume e w :
  let r := peek e w in
  returned r
  = Some (match (if broker_serves e w then head (waiting w) else None) with
          | Some job => Some (with_id (job_id job) (job_data job))
          | None => head (contents w)
          end) /\
  file (world r) = file w /\
  waiting (world r) = waiting w /\
  issued (world r) = issued w.
Proof.
  intros r. subst r. destruct (peek_run e w) as (evs & ->).
  unfold returned, outcome, world. cbn [fst snd].
  by destruct (redis w && ping_ok e && useRedis w).
Qed.

(** X8.  On the file queue, [filePeek] announces what the next
    [fileDequeue] returns, and changes nothing at all. *)
Theorem filePeek_announces_dequeue e w :
  outcome (filePeek w) = outcome (fileDequeue e w) /\
  world (filePeek w) = w.
Proof.
  destruct (filePeek_run w) as (ev1 & ->).
  destruct (fileDequeue_run e w) as (ev2 & ->).
  by destruct (contents w).
Qed.

Lemma attempt_stats_run e w :
  exists evs,
    attempt_stats e w
    = (Returned (if broker_ok e then length (waiting w) else 0), set_queue true w, evs).
Proof.
  unfold attempt_stats, try_catch, getWaitingCount, broker_call, ensure_queue.
  unfold bind, modify, emit, get, ret, throw.
  destruct (broker_ok e); by eexists.
Qed.

Lemma getStats_run e w :
  exists evs,
    getStats e w
    = (Returned (mkStats (redis w && ping_ok e)
                   (if broker_serves e w then length (waiting w) else 0)
                   (length (contents w))),
       (if redis w && ping_ok e && useRedis w then set_queue true w else w),
       evs).
Proof.
  unfold getStats, broker_serves.
  unfold bind at 1. rewrite checkRedis_run. unfold bind at 1, get.
  destruct (redis w && ping_ok e && useRedis w) eqn:Hc; cbn [andb].
  - unfold bind at 1. destruct (attempt_stats_run e w) as (ev1 & ->).
    unfold bind at 1. rewrite readFileQueue_run. unfold ret. by eexists.
  - unfold bind at 1, ret at 1. unfold bind at 1. rewrite readFileQueue_run.
    unfold ret. by eexists.
Qed.

(** X9.  [getStats] reports the outcome of its own probe as
    [available], the length of the broker's waiting list when the broker
    serves the call and 0 otherwise, and the number of records the queue
    file holds (0 for a missing or unreadable file); queue contents are
    left alone. *)
Theorem getStats_reports e w :
  let r := getStats e w in
  returned r
  = Some (mkStats (redis w && ping_ok e)
            (if broker_serves e w then length (waiting w) else 0)
            (length (contents w))) /\
  file (world r) = file w /\
  waiting (world r) = waiting w.
Proof.
  intros r. subst r. destruct (getStats_run e w) as (evs & ->).
  unfold returned, outcome, world. cbn [fst snd].
  by destruct (redis w && ping_ok e && useRedis w).
Qed.

(** *** Edge cases of the file queue *)

(** X10.  On an empty queue (a missing file, an unreadable one, or an
    empty array) [fileDequeue] returns null and writes nothing: the state
    is what it was. *)
Theorem fileDequeue_on_empty e w :
  contents w = [] ->
  let r := fileDequeue e w in
  outcome r = Returned None /\ world r = w /\
  existsb is_fs_write (events r) = false.
Proof.
  intros Hc r. subst r. unfold fileDequeue, bind.
  rewrite readFileQueue_run, Hc. unfold ret, outcome, world, events. cbn [fst snd].
  rewrite ?app_nil_r. by destruct (file w).
Qed.

(** X11.  A queue file that cannot be parsed is not repaired or kept:
    the read error is logged, the queue counts as empty, and the next
    successful [fileEnqueue] replaces the file by an array holding the new
    record alone. *)
Theorem unreadable_file_is_overwritten e task w :
  file w = Corrupt ->
  write_ok e = true ->
  let r := fileEnqueue e task w in
  file (world r) = Stored [build_record e task] /\
  In (Console "[FileQueue] Read error: Unexpected end of JSON input") (events r).
Proof.
  intros Hf Hw r. subst r. unfold fileEnqueue, bind.
  rewrite readFileQueue_run. unfold contents. rewrite Hf.
  rewrite writeFileQueue_run, Hw.
  unfold emit, ret, world, events. cbn [fst snd file set_file app In]. auto.
Qed.

(** X12.  When the write of [fileDequeue] fails, the head is returned
    all the same and stays in the file: the next [fileDequeue] returns the
    same record again. *)
Theorem failed_dequeue_write_redelivers e1 e2 task rest w :
  write_ok e1 = false ->
  contents w = task :: rest ->
  let r1 := fileDequeue e1 w in
  outcome r1 = Returned (Some task) /\
  world r1 = w /\
  outcome (fileDequeue e2 (world r1)) = Returned (Some task).
Proof.
  intros Hw Hc r1. subst r1.
  destruct (fileDequeue_run e1 w) as (ev1 & ->). rewrite Hc, Hw.
  unfold outcome, world. cbn [fst snd].
  destruct (fileDequeue_run e2 w) as (ev2 & ->). by rewrite Hc.
Qed.

Lemma fileDequeue_on_empty_witness :
  world (fileDequeue live (loaded Corrupt)) = loaded Corrupt.
Proof.
  apply (fileDequeue_on_empty live (loaded Corrupt)). reflexivity.
Defined.

Lemma unreadable_file_is_overwritten_witness :
  file (world (fileEnqueue live task_a (loaded Corrupt))) = Stored [build_record live task_a].
Proof.
  apply (unreadable_file_is_overwritten live task_a (loaded Corrupt)); reflexivity.
Defined.

Lemma failed_dequeue_write_redelivers_witness :
  outcome (fileDequeue live
             (world (fileDequeue disk_full (loaded (Stored [build_record live task_a])))))
  = Returned (Some (build_record live task_a)).
Proof.
  apply (failed_dequeue_write_redelivers disk_full live (build_record live task_a) []
           (loaded (Stored [build_record live task_a]))); reflexivity.
Defined.

(** *** A start-up without broker *)

#[local] Hint Resolve keeps_ret keeps_throw keeps_get keeps_bind keeps_try_catch
  keeps_readFileQueue keeps_writeFileQueue keeps_fileEnqueue keeps_fileDequeue
  keeps_filePeek : keeps.
#[local] Hint Extern 1 (keeps _ (emit _)) => apply keeps_emit; by repeat split : keeps.
#[local] Hint Extern 2 (keeps _ (match ?x with _ => _ end)) => destruct x : keeps.

Lemma facade_flag e op w :
  useRedis (world (facade op e w)) = useRedis w /\
  (useRedis w = false -> existsb is_broker (events (facade op e w)) = false).
Proof.
  assert (exists rest,
    events (facade op e w) = (if redis w then [Ping] else []) ++ rest /\
    existsb is_ping rest = false /\
    existsb is_broker rest = redis w && ping_ok e && useRedis w /\
    useRedis (world (facade op e w)) = useRedis w /\
    redis (world (facade op e w)) = redis w) as (rest & -> & _ & Hb & Hu & _).
  { destruct op.
    - eapply guarded_then; [apply enqueue_guarded|apply attempt_enqueue_reaches|].
      intros [avail [r|]]; cbn [snd]; auto 8 with keeps.
    - eapply guarded_then; [apply dequeue_guarded|apply attempt_dequeue_reaches|].
      intros [avail [r|]]; cbn [snd]; auto 8 with keeps.
    - eapply guarded_then; [apply peek_guarded|apply attempt_peek_reaches|].
      intros [avail [r|]]; cbn [snd]; auto 8 with keeps.
    - eapply guarded_then; [apply getStats_guarded|apply attempt_stats_reaches|].
      intros [avail n]; auto 8 with keeps. }
  split; [exact Hu|]. intros Hoff. rewrite existsb_app, Hb, Hoff, andb_false_r.
  by destruct (redis w).
Qed.

Lemma init_sets_flag connect_ok w : useRedis (world (init connect_ok w)) = connect_ok.
Proof. by destruct connect_ok. Qed.

(** X13.  After a start-up whose connection failed, the facade never
    reaches the broker again: whatever calls follow and whatever their
    probes find, no call is sent to it. *)
Theorem failed_startup_is_permanent w calls :
  existsb is_broker (facade_calls calls (world (init false w))).2 = false.
Proof.
  pose proof (init_sets_flag false w) as Hoff.
  generalize dependent (world (init false w)). clear w.
  induction calls as [|[op e] rest IH]; intros w Hoff; cbn [facade_calls]; [done|].
  destruct (facade_flag e op w) as [Hu Hb].
  specialize (IH (world (facade op e w))).
  destruct (facade_calls rest (world (facade op e w))) as [w' evs]. cbn [snd] in *.
  rewrite existsb_app, Hb, IH; [done|congruence|done].
Qed.

End TaskQueueExtras.

(** * Properties of heartbeat.js *)

Module HeartbeatFacts.
Import Js Heartbeat.
Local Open Scope eff_scope.
Local Open Scope Z_scope.

Lemma startCC_run e w :
  exists evs,
    startCC e w = (Returned (started e), w, evs) /\
    existsb is_kill evs = false.
Proof.
  unfold startCC, isCCAlive, log, bind, emit, ret.
  destruct (started e); by eexists.
Qed.

Lemma restartCC_run e w :
  exists evs,
    restartCC e w
    = (if declines e w
       then (Returned false, w, evs)
       else (Returned (started e),
             set_restartAttempts (if started e then 0%nat else S (restartAttempts w))
               (set_lastRestartTime (restart_now e) w),
             evs)) /\
    existsb is_kill evs
    = negb (declines e w).
Proof.
  unfold restartCC, declines. cbv zeta. unfold bind at 1, get.
  destruct (restart_now e - lastRestartTime w <? RESTART_COOLDOWN); cbn [orb negb].
  { unfold log, bind, emit, ret. by eexists. }
  destruct (MAX_RESTART_ATTEMPTS <=? restartAttempts w)%nat.
  { unfold log, bind, emit, ret. by eexists. }
  unfold bind at 1, modify at 1. unfold bind at 1, modify at 1.
  unfold bind at 1, log at 1, emit at 1. unfold bind at 1, emit at 1.
  unfold bind at 1. destruct (startCC_run e
    (set_lastRestartTime (restart_now e) (set_restartAttempts (S (restartAttempts w)) w)))
    as (ev1 & -> & Hk).
  destruct (started e); unfold bind, modify, ret; eexists; (split; [reflexivity|]);
    cbn [existsb app is_kill orb]; done.
Qed.

Lemma saveHeartbeat_run e d w :
  exists evs,
    saveHeartbeat e d w
    = (Returned tt, (if save_ok e then set_heartbeat_file (Some d) w else w), evs) /\
    existsb is_kill evs = false.
Proof.
  unfold saveHeartbeat, try_catch, modify, throw, log, emit.
  destruct (save_ok e); by eexists.
Qed.

Lemma performHeartbeat_run e w :
  exists evs,
    performHeartbeat e w
    = (Returned (report e w),
       (if timed_out e w && negb (declines e (saved e w))
        then set_restartAttempts
               (if started e then 0%nat else S (restartAttempts (saved e w)))
               (set_lastRestartTime (restart_now e) (saved e w))
        else saved e w),
       evs) /\
    existsb is_kill evs = timed_out e w && negb (declines e (saved e w)).
Proof.
  unfold performHeartbeat. cbv zeta.
  unfold bind at 1, readHeartbeat at 1, bind at 1, get at 1, ret at 1.
  unfold bind at 1, log at 1, emit at 1.
  unfold bind at 1, isCCAlive at 1, bind at 1, emit at 1, ret at 1.
  unfold bind at 1, getCCInfo at 1, bind at 1, emit at 1, ret at 1.
  unfold bind at 1, get at 1.
  unfold bind at 1.
  destruct (saveHeartbeat_run e (report e w) w) as (ev1 & Hs & Hk1).
  unfold report in Hs. rewrite Hs. clear Hs.
  unfold bind at 1, modify at 1.
  fold (report e w). fold (saved e w).
  unfold bind at 1. fold (timed_out e w).
  destruct (timed_out e w); cbn [andb].
  - unfold bind at 1, log at 1, emit at 1. unfold bind at 1.
    destruct (restartCC_run e (saved e w)) as (ev2 & -> & Hk2).
    destruct (declines e (saved e w)); cbn [negb] in *.
    + unfold log, emit, ret. eexists. split; [reflexivity|].
      rewrite ?existsb_app, Hk1, Hk2. reflexivity.
    + destruct (started e); unfold log, emit, ret; eexists; (split; [reflexivity|]);
        rewrite ?existsb_app, Hk1, Hk2; reflexivity.
  - destruct (alive e); cbn [negb].
    + unfold log, emit, ret. eexists. split; [reflexivity|].
      rewrite ?existsb_app, Hk1. reflexivity.
    + unfold bind at 1, log at 1, emit at 1. unfold bind at 1.
      destruct (startCC_run e (saved e w)) as (ev2 & -> & Hk2).
      unfold ret. eexists. split; [reflexivity|].
      rewrite ?existsb_app, Hk1, Hk2. reflexivity.
Qed.

Lemma saved_fields e w :
  stored_lastHeartbeat (saved e w) = stored_lastHeartbeat w /\
  restartAttempts (saved e w) = restartAttempts w /\
  lastRestartTime (saved e w) = lastRestartTime w /\
  lastHeartbeat (saved e w) = Some (now e).
Proof.
  unfold saved, stored_lastHeartbeat. destruct (save_ok e); done.
Qed.

Lemma declines_saved e w : declines e (saved e w) = declines e w.
Proof.
  unfold declines. destruct (saved_fields e w) as (_ & -> & -> & _). reflexivity.
Qed.

(** One heartbeat: the world it leaves and whether it kills. *)
Lemma heartbeat_step e w :
  let restarts := timed_out e w && negb (declines e w) in
  let w' := world (performHeartbeat e w) in
  stored_lastHeartbeat w' = stored_lastHeartbeat w /\
  lastHeartbeat w' = Some (now e) /\
  restartAttempts w'
  = (if restarts then if started e then 0%nat else S (restartAttempts w)
     else restartAttempts w) /\
  lastRestartTime w' = (if restarts then restart_now e else lastRestartTime w) /\
  existsb is_kill (events (performHeartbeat e w)) = restarts.
Proof.
  cbv zeta. destruct (performHeartbeat_run e w) as (evs & -> & Hk).
  unfold world, events. cbn [fst snd]. rewrite declines_saved in *.
  destruct (saved_fields e w) as (Hs & Ha & Ht & Hl). rewrite ?Ha.
  destruct (timed_out e w && negb (declines e w)).
  - split; [exact Hs|]. split; [exact Hl|]. done.
  - done.
Qed.

Lemma heartbeats_cons e rest w :
  heartbeats (e :: rest) w
  = ((heartbeats rest (world (performHeartbeat e w))).1,
     events (performHeartbeat e w)
     ++ (heartbeats rest (world (performHeartbeat e w))).2).
Proof.
  cbn [heartbeats]. by destruct (heartbeats rest _).
Qed.

Lemma declines_spent e w :
  (MAX_RESTART_ATTEMPTS <= restartAttempts w)%nat -> declines e w = true.
Proof.
  intros H. unfold declines. apply orb_true_iff. right. by apply Nat.leb_le.
Qed.

Lemma declines_false e w :
  declines e w = false ->
  RESTART_COOLDOWN <= restart_now e - lastRestartTime w /\
  (restartAttempts w < MAX_RESTART_ATTEMPTS)%nat.
Proof.
  unfold declines. intros [H1 H2]%orb_false_iff.
  apply Z.ltb_ge in H1. apply Nat.leb_gt in H2. done.
Qed.

(** X26.  The [lastHeartbeat] field of the heartbeat file is never
    refreshed: every heartbeat writes back the value it read, or leaves the
    file alone when the write fails, so after any number of heartbeats the
    next one reads the value that was there before the first, while the
    module's own [lastHeartbeat] holds the time of the latest heartbeat. *)
Theorem stored_timestamp_is_never_refreshed envs w :
  stored_lastHeartbeat (heartbeats envs w).1 = stored_lastHeartbeat w /\
  lastHeartbeat (heartbeats envs w).1
  = match last envs with
    | Some e => Some (now e)
    | None => lastHeartbeat w
    end.
Proof.
  revert w. induction envs as [|e rest IH]; intros w; [done|].
  rewrite heartbeats_cons. cbn [fst].
  destruct (heartbeat_step e w) as (Hs & Hl & _).
  destruct (IH (world (performHeartbeat e w))) as (IH1 & IH2).
  rewrite IH1, IH2, Hs, Hl. split; [done|].
  destruct rest as [|e' rest]; [done|].
  change (last (e :: e' :: rest)) with (last (e' :: rest)).
  by destruct (last (e' :: rest)) eqn:E; [|apply last_None in E].
Qed.

(** X27.  When the heartbeat file is missing, unreadable, or holds no
    timestamp, no heartbeat ever takes the liveness-timeout branch: however
    long the checks go on and whatever they find, the process is never
    killed, and the restart counter and the time of the last restart stay
    as they were. *)
Theorem no_stored_timestamp_no_restart envs w :
  truthy (stored_lastHeartbeat w) = false ->
  existsb is_kill (heartbeats envs w).2 = false /\
  restartAttempts (heartbeats envs w).1 = restartAttempts w /\
  lastRestartTime (heartbeats envs w).1 = lastRestartTime w.
Proof.
  revert w. induction envs as [|e rest IH]; intros w H; [done|].
  rewrite heartbeats_cons. cbn [fst snd].
  destruct (heartbeat_step e w) as (Hs & _ & Ha & Ht & Hk).
  assert (timed_out e w = false) as Hn.
  { unfold timed_out. fold (stored_lastHeartbeat w). by rewrite H. }
  rewrite Hn in *. cbn [andb] in *.
  destruct (IH (world (performHeartbeat e w))) as (IH1 & IH2 & IH3);
    [by rewrite Hs|].
  rewrite existsb_app, Hk, IH1, IH2, IH3, Ha, Ht. done.
Qed.

Lemma no_stored_timestamp_no_restart_witness :
  truthy (stored_lastHeartbeat (loaded None)) = false /\
  existsb is_kill (heartbeats [cc_dead; cc_dead; cc_fine] (loaded None)).2 = false.
Proof.
  split; [reflexivity|].
  apply (no_stored_timestamp_no_restart [cc_dead; cc_dead; cc_fine] (loaded None)).
  reflexivity.
Defined.

(** X28.  A stored timestamp more than 30 seconds old makes the heartbeat
    kill the process even when the process was just found
    alive, provided the cooldown has passed and fewer than three restarts
    are counted; the counter goes back to 0 if the process is found three
    seconds after the spawn and up by one otherwise. *)
Theorem stale_timestamp_restarts_a_live_process e w t :
  stored_lastHeartbeat w = Some t ->
  t <> 0 ->
  CC_LIVENESS_TIMEOUT < now e - t ->
  RESTART_COOLDOWN <= restart_now e - lastRestartTime w ->
  (restartAttempts w < MAX_RESTART_ATTEMPTS)%nat ->
  let r := performHeartbeat e w in
  existsb is_kill (events r) = true /\
  restartAttempts (world r) = (if started e then 0%nat else S (restartAttempts w)) /\
  lastRestartTime (world r) = restart_now e.
Proof.
  intros Hs Hz Hold Hcool Hn. cbv zeta.
  destruct (heartbeat_step e w) as (_ & _ & Ha & Ht & Hk).
  assert (timed_out e w = true) as Hto.
  { unfold timed_out. fold (stored_lastHeartbeat w). rewrite Hs. cbn.
    apply andb_true_iff. split; [apply negb_true_iff; by apply Z.eqb_neq|].
    by apply Z.ltb_lt. }
  assert (declines e w = false) as Hd.
  { unfold declines. apply orb_false_iff. split; [by apply Z.ltb_ge|by apply Nat.leb_gt]. }
  rewrite Hto, Hd in *. done.
Qed.

Lemma stale_timestamp_restarts_a_live_process_witness :
  alive cc_fine = true /\
  existsb is_kill (events (performHeartbeat cc_fine (loaded (Some stale_file)))) = true.
Proof.
  split; [reflexivity|].
  apply (stale_timestamp_restarts_a_live_process cc_fine (loaded (Some stale_file))
           1700000000000); [reflexivity|done|reflexivity|done|unfold MAX_RESTART_ATTEMPTS; cbn; lia].
Defined.

(** X29.  The restart counter never exceeds three: if it is at most three
    before a run of heartbeats, it is at most three after it. *)
Theorem restart_counter_is_bounded envs w :
  (restartAttempts w <= MAX_RESTART_ATTEMPTS)%nat ->
  (restartAttempts (heartbeats envs w).1 <= MAX_RESTART_ATTEMPTS)%nat.
Proof.
  revert w. induction envs as [|e rest IH]; intros w H; [done|].
  rewrite heartbeats_cons. cbn [fst]. apply IH.
  destruct (heartbeat_step e w) as (_ & _ & -> & _).
  destruct (timed_out e w); cbn [andb]; [|done].
  destruct (declines e w) eqn:Hd; cbn [negb]; [done|].
  apply declines_false in Hd as [_ Hd].
  destruct (started e); unfold MAX_RESTART_ATTEMPTS in *; lia.
Qed.

Lemma restart_counter_is_bounded_witness :
  (restartAttempts (heartbeats [cc_dead; cc_fine] (loaded (Some stale_file))).1
   <= MAX_RESTART_ATTEMPTS)%nat.
Proof.
  apply (restart_counter_is_bounded [cc_dead; cc_fine] (loaded (Some stale_file))).
  unfold MAX_RESTART_ATTEMPTS. cbn. lia.
Defined.

(** X30.  Three failed restarts in a row end the restarting for good: once
    the counter has reached three, no later heartbeat kills the process or
    changes the counter, since only a restart resets it. *)
Theorem spent_restart_budget_is_final envs w :
  (MAX_RESTART_ATTEMPTS <= restartAttempts w)%nat ->
  existsb is_kill (heartbeats envs w).2 = false /\
  restartAttempts (heartbeats envs w).1 = restartAttempts w.
Proof.
  revert w. induction envs as [|e rest IH]; intros w H; [done|].
  rewrite heartbeats_cons. cbn [fst snd].
  destruct (heartbeat_step e w) as (_ & _ & Ha & _ & Hk).
  rewrite (declines_spent e w H), andb_false_r in *.
  destruct (IH (world (performHeartbeat e w))) as (IH1 & IH2); [by rewrite Ha|].
  rewrite existsb_app, Hk, IH1, IH2, Ha. done.
Qed.

Lemma spent_restart_budget_is_final_witness :
  existsb is_kill
    (heartbeats [cc_dead; cc_fine]
       (mkWorld None 3 1700000000000 (Some stale_file))).2 = false.
Proof.
  apply (spent_restart_budget_is_final [cc_dead; cc_fine]
           (mkWorld None 3 1700000000000 (Some stale_file))).
  unfold MAX_RESTART_ATTEMPTS. cbn. lia.
Defined.

End HeartbeatFacts.
